(** * Replication client of the gazette journal broker

    A shallow embedding of [gazette/replicate_client.go]: the registry of
    idle connection pools, [takeConn] and [putConn], the handshake run by
    [replicaClientTransaction.start], the streaming [Write] and the
    [Commit] exchange, together with the parts of the Go standard library
    that decide what the file does ([strconv], [fmt], [net/url], [bufio],
    [httputil]).

    The mutable objects of the program (connections with their deadline
    and buffered writer, the pool channels) live in an explicit [World].
    A computation takes a world and ends with a value or in a panic,
    leaving a world and the log of the calls it made. Whatever the peer,
    the network and the discovery collaborator answer is taken from an
    environment record, so that a theorem quantifies over all of it. *)

From Stdlib Require Import ZArith Ascii String List Bool Lia.
From stdpp Require Import base option list gmap strings.

Local Open Scope string_scope.
Local Open Scope Z_scope.

(** ** Signed and unsigned 64-bit arithmetic *)

Module Int64.

Definition modulus : Z := 2 ^ 64.
Definition maxUint64 : Z := 2 ^ 64 - 1.
Definition MaxInt64 : Z := 2 ^ 63 - 1.
Definition MinInt64 : Z := - 2 ^ 63.

(** Conversion [uint64(x)]: reduction modulo 2^64. *)
Definition to_uint64 (z : Z) : Z := z mod modulus.

(** Conversion [int64(x)]: two's complement reading of the low 64 bits. *)
Definition to_int64 (z : Z) : Z := (z + 2 ^ 63) mod modulus - 2 ^ 63.

Definition in_int64 (z : Z) : Prop := MinInt64 <= z <= MaxInt64.

End Int64.

(** ** [strconv]: text encodings of integers *)

Module strconv.
Import Int64.

(** The [Err] field of a [*strconv.NumError]. *)
Inductive NumError : Set :=
| ErrSyntax
| ErrRange
| ErrBase.

Definition byte_val (c : ascii) : Z := Z.of_N (N_of_ascii c).

(** The digit switch of [ParseUint]: ['0'..'9'], ['a'..'z'], ['A'..'Z']. *)
Definition digit_val (d : Z) : option Z :=
  if (48 <=? d) && (d <=? 57) then Some (d - 48)
  else if (97 <=? d) && (d <=? 122) then Some (d - 97 + 10)
  else if (65 <=? d) && (d <=? 90) then Some (d - 65 + 10)
  else None.

(** [cutoff64(base)]: the least [n] with [n * base > 1<<64 - 1]. *)
Definition cutoff64 (base : Z) : Z :=
  if base <? 2 then 0 else maxUint64 / base + 1.

(** The digit loop of [ParseUint]. A range error leaves the loop at once,
    without looking at the rest of the text. *)
Fixpoint ParseUint_loop (base maxVal cutoff : Z) (s : string) (n : Z)
  : Z * option NumError :=
  match s with
  | EmptyString => (n, None)
  | String d s' =>
      match digit_val (byte_val d) with
      | None => (0, Some ErrSyntax)
      | Some v =>
          if base <=? v then (0, Some ErrSyntax)
          else if cutoff <=? n then (maxUint64, Some ErrRange)
          else
            let n' := n * base in
            let n1 := to_uint64 (n' + v) in
            if (n1 <? n') || (maxVal <? n1) then (maxUint64, Some ErrRange)
            else ParseUint_loop base maxVal cutoff s' n1
      end
  end.

(** [strconv.ParseUint(s, base, bitSize)] for an explicit base; the
    prefix-detecting base 0 is not used by the client and is reported like
    any other base outside 2..36. *)
Definition ParseUint (s : string) (base bitSize : Z) : Z * option NumError :=
  match s with
  | EmptyString => (0, Some ErrSyntax)
  | _ =>
      if (2 <=? base) && (base <=? 36) then
        ParseUint_loop base (2 ^ bitSize - 1) (cutoff64 base) s 0
      else (0, Some ErrBase)
  end.

(** [strconv.ParseInt(s, base, bitSize)]. On a syntax error the value is 0;
    on a range error it is the bound of largest magnitude with the sign of
    the text. *)
Definition ParseInt (s : string) (base bitSize : Z) : Z * option NumError :=
  match s with
  | EmptyString => (0, Some ErrSyntax)
  | String c rest =>
      let '(neg, s1) :=
        if Ascii.eqb c "+"%char then (false, rest)
        else if Ascii.eqb c "-"%char then (true, rest)
        else (false, s) in
      let '(un, err) := ParseUint s1 base bitSize in
      match err with
      | Some ErrSyntax => (0, Some ErrSyntax)
      | Some ErrBase => (0, Some ErrBase)
      | _ =>
          let cutoff := 2 ^ (bitSize - 1) in
          if negb neg && (cutoff <=? un) then (cutoff - 1, Some ErrRange)
          else if neg && (cutoff <? un) then (- cutoff, Some ErrRange)
          else
            let n := to_int64 un in
            (if neg then to_int64 (- n) else n, None)
      end
  end.

Definition digits : string := "0123456789abcdefghijklmnopqrstuvwxyz".

Definition digit (v : Z) : ascii :=
  match String.get (Z.to_nat v) digits with
  | Some c => c
  | None => "0"%char
  end.

(** The digit loop of [formatBits], filling its buffer from the right;
    [fuel] is the size of the buffer. *)
Fixpoint formatBits_loop (fuel : nat) (b u : Z) (acc : string) : string :=
  match fuel with
  | O => acc
  | S fuel' =>
      if u <? b then String (digit u) acc
      else formatBits_loop fuel' b (u / b) (String (digit (u mod b)) acc)
  end.

(** [strconv.FormatInt(i, base)]: [formatBits] over a buffer of 64 digits
    and a sign. *)
Definition FormatInt (i : Z) (base : Z) : string :=
  let neg := i <? 0 in
  let u := to_uint64 i in
  let u := if neg then to_uint64 (- u) else u in
  let body := formatBits_loop 64 base u "" in
  if neg then String "-"%char body else body.

Definition FormatBool (b : bool) : string := if b then "true" else "false".

End strconv.

(** ** [fmt]: the verb used for the commit trailer *)

Module fmt.

(** [%x] applied to an [int64]: [fmt_integer] negates a negative operand,
    writes the magnitude in lower-case hexadecimal and puts the sign in
    front, which is the text [strconv.FormatInt (_, 16)] gives. *)
Definition verb_x (v : Z) : string := strconv.FormatInt v 16.

End fmt.

(** ** [net/url]: query strings *)

Module url.
Import strconv.

Definition upperhex : string := "0123456789ABCDEF".

Definition hexdigit (v : Z) : ascii :=
  match String.get (Z.to_nat v) upperhex with
  | Some c => c
  | None => "0"%char
  end.

(** [shouldEscape(c, encodeQueryComponent)]: letters, digits and the four
    marks [-_.~] are kept, every other byte is escaped. *)
Definition shouldEscape (c : ascii) : bool :=
  let d := byte_val c in
  negb (((65 <=? d) && (d <=? 90)) || ((97 <=? d) && (d <=? 122))
        || ((48 <=? d) && (d <=? 57))
        || (d =? 45) || (d =? 95) || (d =? 46) || (d =? 126)).

(** [url.QueryEscape]. *)
Fixpoint QueryEscape (s : string) : string :=
  match s with
  | EmptyString => EmptyString
  | String c s' =>
      if shouldEscape c then
        if byte_val c =? 32 then String "+"%char (QueryEscape s')
        else String "%"%char
               (String (hexdigit (Z.shiftr (byte_val c) 4))
                  (String (hexdigit (Z.land (byte_val c) 15)) (QueryEscape s')))
      else String c (QueryEscape s')
  end.

(** [url.Values], a map from a key to its values, kept as the list of its
    entries. *)
Definition Values : Type := list (string * list string).

Fixpoint insert_sorted (k : string) (ks : list string) : list string :=
  match ks with
  | [] => [k]
  | k' :: ks' =>
      match String.compare k k' with
      | Gt => k' :: insert_sorted k ks'
      | _ => k :: ks
      end
  end.

(** [sort.Strings]. *)
Definition sort_strings (ks : list string) : list string :=
  fold_right insert_sorted [] ks.

Fixpoint Get_all (v : Values) (k : string) : list string :=
  match v with
  | [] => []
  | (k', vs) :: v' => if String.eqb k k' then vs else Get_all v' k
  end.

Fixpoint Encode_vals (prefix : string) (vs : list string) (out : string) : string :=
  match vs with
  | [] => out
  | x :: vs' =>
      let out := match out with EmptyString => out | _ => out ++ "&" end in
      Encode_vals prefix vs' (out ++ prefix ++ QueryEscape x)
  end.

(** [Values.Encode]: the entries in the order of their sorted keys, joined
    by [&]. *)
Definition Encode (v : Values) : string :=
  fold_left (fun out k => Encode_vals (QueryEscape k ++ "=") (Get_all v k) out)
    (sort_strings (map fst v)) "".

Record URL : Type := mkURL {
  Host : string;
  Path : string;
  RawQuery : string
}.

End url.

(** ** Errors and fallible results *)

(** A Go [error] value that is not nil; [errors.New s] is [errorString s]. *)
Inductive error : Type :=
| errorString (msg : string).

Definition error_message (e : error) : string :=
  match e with errorString m => m end.

Inductive Res (A : Type) : Type :=
| Ok (a : A)
| Err (e : error).
Arguments Ok {A} a.
Arguments Err {A} e.

(** ** [net/http]: requests and responses *)

Module http.

Definition StatusContinue : Z := 100.
Definition StatusNoContent : Z := 204.

(** [http.Header]: a header name in canonical form to its values. *)
Abbreviation Header := (gmap string (list string)).

(** [Header.Get]: the first value of the key, or the empty text. The keys
    used by the client are already in canonical form. *)
Definition Get (h : Header) (key : string) : string :=
  match h !! key with
  | Some (v :: _) => v
  | _ => ""
  end.

(** [Header.Add]. *)
Definition Add (h : Header) (key value : string) : Header :=
  <[key := (default [] (h !! key) ++ [value])%list]> h.

Record Request : Type := mkRequest {
  Method : string;
  URL : url.URL;
  ReqHeader : Header;
  TransferEncoding : list string
}.

(** What [http.ReadResponse] hands back: [Body] is the text that copying
    [resp.Body] yields. *)
Record Response : Type := mkResponse {
  StatusCode : Z;
  RespHeader : Header;
  Body : string;
  Close : bool
}.

End http.

(** ** The world: connections and pools *)

Definition ConnId : Type := nat.

(** A [replicaClientConn]: the transport and the buffered reader/writer
    wrapped around it. [None] is Go's nil, as in the zero value
    [replicaClientConn{}]. *)
Record replicaClientConn : Type := mkConn {
  raw : option ConnId;
  buf : option ConnId
}.

Definition zeroConn : replicaClientConn := {| raw := None; buf := None |}.

(** The state behind a connection. [deadline] is the read deadline, [None]
    for the zero [time.Time]; [pending] is the text held by the
    [bufio.Writer], [wire] the text handed to the transport, [werr] the
    writer's sticky error. The writer's buffer is taken large enough that
    text leaves it only at [Flush]. *)
Record ConnState : Type := mkConnState {
  deadline : option Z;
  pending : string;
  wire : string;
  werr : option error
}.

Definition freshConnState : ConnState :=
  {| deadline := None; pending := ""; wire := ""; werr := None |}.

(** A buffered channel of connections: capacity given to [make] and the
    queued values, oldest first. *)
Record Chan : Type := mkChan {
  cap : nat;
  queue : list replicaClientConn
}.

(** [discovery.Endpoint], of the discovery collaborator: its base URL;
    what its methods answer is part of the environment of a run. *)
Record Endpoint : Type := mkEndpoint {
  BaseURL : string
}.

(** [idlePool] names the channel by the key under which the registry
    [idlePools] holds it. *)
Record ReplicateClient : Type := mkClient {
  endpoint : Endpoint;
  idlePool : string
}.

(** [httputil.chunkedWriter]. *)
Record chunkedWriter : Type := mkChunkedWriter {
  Wire : ConnId
}.

Record replicaClientTransaction : Type := mkTransaction {
  client : ReplicateClient;
  chunker : option chunkedWriter;
  conn : replicaClientConn;
  request : option http.Request
}.

(** Modelled from the spec: [journal.ReplicateResult], whose declaration
    is in the journal package; the outcome delivered once on the result
    channel, with the three fields that [start] fills. [Writer] is the
    transaction that [start] delivers as the write handle. *)
Record ReplicateResult : Type := mkResult {
  Error : option error;
  ErrorWriteHead : Z;
  Writer : option replicaClientTransaction
}.

(** Modelled from the spec: [journal.ReplicateOp], whose declaration is
    in the journal package; the journal, the routing token, whether to
    start a new spool, the expected write offset, and the result channel,
    which [Result] names. *)
Record ReplicateOp : Type := mkOp {
  Journal : string;
  RouteToken : string;
  NewSpool : bool;
  WriteHead : Z;
  Result : nat
}.

(** The effects of the client: its calls on connections, pools, the
    endpoint and the result channel, with their arguments and, where the
    constructor has a flag, whether the call went through. [EvClose]
    stands for [net.Conn.Close]; no function of the client calls it. *)
Inductive Event : Type :=
| EvPoolTake (c : replicaClientConn)
| EvPoolPut (c : replicaClientConn) (queued : bool)
| EvResolveURL (ok : bool)
| EvDial (host : string) (ok : bool)
| EvInvalidateResolution
| EvSetReadDeadline (c : ConnId) (d : option Z)
| EvBufWrite (c : ConnId) (s : string)
| EvFlush (c : ConnId) (ok : bool)
| EvReadResponse (c : ConnId) (r : Res http.Response)
| EvLogError (msg : string)
| EvClose (c : ConnId)
| EvSend (ch : nat) (r : ReplicateResult).

(** [idlePools] is the package's registry of pools, keyed on the base URL
    of an endpoint. *)
Record World : Type := mkWorld {
  idlePools : gmap string Chan;
  conns : gmap ConnId ConnState;
  nextConn : ConnId
}.

(** The package's [init]: an empty registry. *)
Definition init : World :=
  {| idlePools := ∅; conns := ∅; nextConn := 0%nat |}.

Definition conn_get (w : World) (c : ConnId) : ConnState :=
  default freshConnState (conns w !! c).

Definition set_conn (c : ConnId) (st : ConnState) (w : World) : World :=
  {| idlePools := idlePools w; conns := <[c := st]> (conns w);
     nextConn := nextConn w |}.

Definition set_pool (k : string) (ch : Chan) (w : World) : World :=
  {| idlePools := <[k := ch]> (idlePools w); conns := conns w;
     nextConn := nextConn w |}.

(** ** Computations: state passing, a log of effects, and panics *)

(** A computation ends with a value or in a panic; either way it leaves a
    world and the effects it had, oldest first. *)
Inductive Outcome (A : Type) : Type :=
| Done (a : A) (w : World) (evs : list Event)
| Panicked (w : World) (evs : list Event).
Arguments Done {A} a w evs.
Arguments Panicked {A} w evs.

Definition M (A : Type) : Type := World -> Outcome A.

Definition after {A : Type} (evs : list Event) (o : Outcome A) : Outcome A :=
  match o with
  | Done a w evs' => Done a w (evs ++ evs')
  | Panicked w evs' => Panicked w (evs ++ evs')
  end.

#[global] Instance M_ret : MRet M := fun A a w => Done a w [].

#[global] Instance M_bind : MBind M := fun A B f m w =>
  match m w with
  | Done a w' evs => after evs (f a w')
  | Panicked w' evs => Panicked w' evs
  end.

Definition emit (ev : Event) : M unit := fun w => Done tt w [ev].

Definition panic {A : Type} : M A := fun w => Panicked w [].

(** Use of a pointer: nil panics. *)
Definition deref {A : Type} (p : option A) : M A :=
  match p with
  | Some a => mret a
  | None => panic
  end.

Definition final_world {A : Type} (o : Outcome A) : World :=
  match o with
  | Done _ w _ => w
  | Panicked w _ => w
  end.

Definition events {A : Type} (o : Outcome A) : list Event :=
  match o with
  | Done _ _ evs => evs
  | Panicked _ evs => evs
  end.

Definition panicked {A : Type} (o : Outcome A) : bool :=
  match o with
  | Done _ _ _ => false
  | Panicked _ _ => true
  end.

(** [err == nil]. *)
Definition is_nil (err : option error) : bool :=
  match err with
  | None => true
  | Some _ => false
  end.

(** ** Transport, buffering and chunk framing *)

Definition CRLF : string := String "013"%char (String "010"%char "").

Definition len (s : string) : Z := Z.of_nat (String.length s).

Module time.

(** [time.Minute], in nanoseconds. *)
Definition Minute : Z := 60 * 1000000000.

End time.

Definition with_deadline (d : option Z) (st : ConnState) : ConnState :=
  {| deadline := d; pending := pending st; wire := wire st; werr := werr st |}.

(** [net.Conn.SetReadDeadline]. *)
Definition SetReadDeadline (c : ConnId) (d : option Z) : M unit := fun w =>
  Done tt (set_conn c (with_deadline d (conn_get w c)) w) [EvSetReadDeadline c d].

Module bufio.

(** [Writer.Write] and [Writer.WriteString]: refused once the writer holds
    an error, appended to the buffer otherwise. *)
Definition Write (c : ConnId) (s : string) : M (Z * option error) := fun w =>
  let st := conn_get w c in
  match werr st with
  | Some e => Done (0, Some e) w [EvBufWrite c s]
  | None =>
      Done (len s, None)
        (set_conn c {| deadline := deadline st; pending := pending st ++ s;
                       wire := wire st; werr := None |} w)
        [EvBufWrite c s]
  end.

(** [Writer.Flush]: the sticky error if there is one, nothing to do on an
    empty buffer, else one write to the transport whose result
    [transport] gives; a failure sticks. *)
Definition Flush (transport : option error) (c : ConnId) : M (option error) :=
  fun w =>
  let st := conn_get w c in
  match werr st with
  | Some e => Done (Some e) w [EvFlush c false]
  | None =>
      if String.eqb (pending st) "" then Done None w [EvFlush c true]
      else
        match transport with
        | None =>
            Done None
              (set_conn c {| deadline := deadline st; pending := "";
                             wire := wire st ++ pending st; werr := None |} w)
              [EvFlush c true]
        | Some e =>
            Done (Some e)
              (set_conn c {| deadline := deadline st; pending := pending st;
                             wire := wire st; werr := Some e |} w)
              [EvFlush c false]
        end
  end.

End bufio.

Module httputil.

(** [httputil.NewChunkedWriter]. *)
Definition NewChunkedWriter (w : ConnId) : chunkedWriter := {| Wire := w |}.

(** [chunkedWriter.Write]: the length in hexadecimal, the data, and a line
    end; empty data writes nothing. *)
Definition Write (cw : chunkedWriter) (data : string) : M (Z * option error) :=
  if String.eqb data "" then mret (0, None)
  else
    '(_, err) ← bufio.Write (Wire cw) (fmt.verb_x (len data) ++ CRLF);
    match err with
    | Some e => mret (0, Some e)
    | None =>
        '(n, err) ← bufio.Write (Wire cw) data;
        match err with
        | Some e => mret (n, Some e)
        | None =>
            '(_, err) ← bufio.Write (Wire cw) CRLF;
            mret (n, err)
        end
    end.

(** [chunkedWriter.Close]: the terminal empty chunk. *)
Definition Close (cw : chunkedWriter) : M (option error) :=
  '(_, err) ← bufio.Write (Wire cw) ("0" ++ CRLF);
  mret err.

End httputil.

(** ** The replication client *)

Definition CommitDeltaHeader : string := "X-Commit-Delta".
Definition FragmentNameHeader : string := "X-Fragment-Name".
Definition FragmentLocationHeader : string := "X-Fragment-Location".
Definition WriteHeadHeader : string := "X-Write-Head".

Definition ReplicateClientIdlePoolSize : nat := 6.

(** What the peer, the network and the discovery collaborator answer
    during one run of [start]. *)
Record StartEnv : Type := mkStartEnv {
  env_ResolveURL : Res url.URL;
  env_Dial : string -> option error;
  env_NewHTTPRequest : string -> string -> option http.Request * option error;
  env_DumpRequest : http.Request -> Res string;
  env_Flush : option error;
  env_Now : Z;
  env_ReadResponse : Res http.Response;
  env_FlushEnd : option error
}.

(** What the peer and the network answer during one [Commit]. *)
Record CommitEnv : Type := mkCommitEnv {
  cenv_Flush : option error;
  cenv_Now : Z;
  cenv_ReadResponse : Res http.Response
}.

(** [NewReplicateClient]: look the pool up under the endpoint's base URL,
    making it on first use. *)
Definition NewReplicateClient (ep : Endpoint) : M ReplicateClient := fun w =>
  let w' :=
    match idlePools w !! BaseURL ep with
    | Some _ => w
    | None =>
        set_pool (BaseURL ep)
          {| cap := ReplicateClientIdlePoolSize; queue := [] |} w
    end in
  Done {| endpoint := ep; idlePool := BaseURL ep |} w' [].

(** [select { case conn = <-pool: ... default: }]. *)
Definition pool_try_recv (k : string) : M (option replicaClientConn) := fun w =>
  match idlePools w !! k with
  | Some {| cap := n; queue := c :: rest |} =>
      Done (Some c) (set_pool k {| cap := n; queue := rest |} w) [EvPoolTake c]
  | _ => Done None w []
  end.

(** [select { case pool <- conn: default: }]. *)
Definition pool_try_send (k : string) (c : replicaClientConn) : M unit := fun w =>
  match idlePools w !! k with
  | Some ch =>
      if (length (queue ch) <? cap ch)%nat then
        Done tt (set_pool k {| cap := cap ch; queue := queue ch ++ [c] |} w)
          [EvPoolPut c true]
      else Done tt w [EvPoolPut c false]
  | None => Done tt w [EvPoolPut c false]
  end.

(** [endpoint.ResolveURL]. *)
Definition ResolveURL (env : StartEnv) : M (Res url.URL) :=
  emit (EvResolveURL (match env_ResolveURL env with Ok _ => true | Err _ => false end));;
  mret (env_ResolveURL env).

(** [net.Dial]: a new connection on success. *)
Definition Dial (env : StartEnv) (host : string) : M (Res ConnId) := fun w =>
  match env_Dial env host with
  | Some e => Done (Err e) w [EvDial host false]
  | None =>
      let c := nextConn w in
      Done (Ok c)
        (set_conn c freshConnState
           {| idlePools := idlePools w; conns := conns w; nextConn := S c |})
        [EvDial host true]
  end.

(** [endpoint.InvalidateResolution]. *)
Definition InvalidateResolution : M unit := emit EvInvalidateResolution.

(** [http.ReadResponse] on the connection's reader. *)
Definition ReadResponse (r : Res http.Response) (c : ConnId) : M (Res http.Response) :=
  emit (EvReadResponse c r);; mret r.

(** [op.Result <- r]. *)
Definition send (ch : nat) (r : ReplicateResult) : M unit := emit (EvSend ch r).

Definition takeConn (env : StartEnv) (t : replicaClientTransaction)
  : M (replicaClientConn * option error) :=
  got ← pool_try_recv (idlePool (client t));
  match got with
  | Some c => mret (c, None)
  | None =>
      u ← ResolveURL env;
      match u with
      | Err e => mret (zeroConn, Some e)
      | Ok u =>
          d ← Dial env (url.Host u);
          match d with
          | Err e => InvalidateResolution;; mret (zeroConn, Some e)
          | Ok r => mret ({| raw := Some r; buf := Some r |}, None)
          end
      end
  end.

Definition putConn (t : replicaClientTransaction) (c : replicaClientConn) : M unit :=
  r ← deref (raw c);
  SetReadDeadline r None;;
  pool_try_send (idlePool (client t)) c.

Definition queryArgs (op : ReplicateOp) : url.Values :=
  [ ("newSpool", [strconv.FormatBool (NewSpool op)]);
    ("writeHead", [strconv.FormatInt (WriteHead op) 10]);
    ("routeToken", [RouteToken op]) ].

(** The handshake request once [start] has set its query, [Expect] header
    and transfer encoding. *)
Definition handshake_request (op : ReplicateOp) (req : http.Request) : http.Request :=
  {| http.Method := http.Method req;
     http.URL := {| url.Host := url.Host (http.URL req);
                    url.Path := url.Path (http.URL req);
                    url.RawQuery := url.Encode (queryArgs op) |};
     http.ReqHeader := http.Add (http.ReqHeader req) "Expect" "100-continue";
     http.TransferEncoding := ["chunked"] |}.

Definition error_result (e : error) (head : Z) : ReplicateResult :=
  {| Error := Some e; ErrorWriteHead := head; Writer := None |}.

(** The write head a rejecting peer reports: the parsed header; a parse
    error is logged and the value [ParseInt] returned with it is kept. *)
Definition remoteWriteHead (resp : http.Response) : M Z :=
  let s := http.Get (http.RespHeader resp) WriteHeadHeader in
  if String.eqb s "" then mret 0
  else
    let '(v, err) := strconv.ParseInt s 16 64 in
    match err with
    | Some _ => emit (EvLogError "failed to parse replica head");; mret v
    | None => mret v
    end.

(** [start], after a response whose status is not 100 (Continue): the
    body becomes the error, the reported write head is attached, the
    chunked body is ended, and the connection is kept for reuse when the
    peer allows it and the flush went through. *)
Definition rejected (env : StartEnv) (op : ReplicateOp) (t : replicaClientTransaction)
    (c : replicaClientConn) (b : ConnId) (resp : http.Response)
  : M replicaClientTransaction :=
  let body := http.Body resp in
  head ← remoteWriteHead resp;
  bufio.Write b ("0" ++ CRLF ++ CRLF);;
  ferr ← bufio.Flush (env_FlushEnd env) b;
  (if negb (http.Close resp) && is_nil ferr
   then putConn t c else mret tt);;
  send (Result op) (error_result (errorString body) head);;
  mret t.

(** [start], after the 100 (Continue): the deadline is cleared, the
    transaction takes the connection and is delivered as the writer. *)
Definition opened (op : ReplicateOp) (t : replicaClientTransaction)
    (c : replicaClientConn) (r b : ConnId) (req : http.Request)
  : M replicaClientTransaction :=
  SetReadDeadline r None;;
  let t' := {| client := client t;
               chunker := Some (httputil.NewChunkedWriter b);
               conn := c;
               request := Some req |} in
  send (Result op) {| Error := None; ErrorWriteHead := 0; Writer := Some t' |};;
  mret t'.

(** [start], once it holds a connection: build and flush the request,
    then wait for the peer's response. The error that comes with the
    request is dropped, and the request is used as it is. *)
Definition handshake (env : StartEnv) (op : ReplicateOp) (t : replicaClientTransaction)
    (c : replicaClientConn) : M replicaClientTransaction :=
  let '(req, _) := env_NewHTTPRequest env "REPLICATE" ("/" ++ Journal op) in
  req ← deref req;
  let req := handshake_request op req in
  match env_DumpRequest env req with
  | Err e => send (Result op) (error_result e 0);; mret t
  | Ok reqBytes =>
      b ← deref (buf c);
      bufio.Write b reqBytes;;
      ferr ← bufio.Flush (env_Flush env) b;
      match ferr with
      | Some e => send (Result op) (error_result e 0);; mret t
      | None =>
          r ← deref (raw c);
          SetReadDeadline r (Some (env_Now env + time.Minute));;
          resp ← ReadResponse (env_ReadResponse env) b;
          match resp with
          | Err e => send (Result op) (error_result e 0);; mret t
          | Ok resp =>
              if negb (http.StatusCode resp =? http.StatusContinue)
              then rejected env op t c b resp
              else opened op t c r b req
          end
      end
  end.

Definition start (env : StartEnv) (op : ReplicateOp) (t : replicaClientTransaction)
  : M replicaClientTransaction :=
  '(c, err) ← takeConn env t;
  match err with
  | Some e => send (Result op) (error_result e 0);; mret t
  | None => handshake env op t c
  end.

(** [Replicate]: a new transaction for the client, and its [start]. The
    goroutine is run to its end. *)
Definition Replicate (env : StartEnv) (c : ReplicateClient) (op : ReplicateOp)
  : M replicaClientTransaction :=
  start env op {| client := c; chunker := None; conn := zeroConn; request := None |}.

Definition Write (t : replicaClientTransaction) (p : string) : M (Z * option error) :=
  cw ← deref (chunker t);
  httputil.Write cw p.

Definition Commit (env : CommitEnv) (t : replicaClientTransaction) (delta : Z)
  : M (option error) :=
  cw ← deref (chunker t);
  httputil.Close cw;;
  b ← deref (buf (conn t));
  bufio.Write b (CommitDeltaHeader ++ ": " ++ fmt.verb_x delta ++ CRLF ++ CRLF);;
  ferr ← bufio.Flush (cenv_Flush env) b;
  match ferr with
  | Some e => mret (Some e)
  | None =>
      r ← deref (raw (conn t));
      SetReadDeadline r (Some (cenv_Now env + time.Minute));;
      resp ← ReadResponse (cenv_ReadResponse env) b;
      match resp with
      | Err e => mret (Some e)
      | Ok resp =>
          let err :=
            if negb (http.StatusCode resp =? http.StatusNoContent)
            then Some (errorString (http.Body resp))
            else None in
          (if negb (http.Close resp) then putConn t (conn t) else mret tt);;
          mret err
      end
  end.

(** ** Reading the log *)

(** The effects of running [m] in [w]. *)
Definition events_of {A : Type} (m : M A) (w : World) : list Event :=
  events (m w).

(** The values sent on channel [ch], in order. *)
Fixpoint sends_on (ch : nat) (evs : list Event) : list ReplicateResult :=
  match evs with
  | [] => []
  | EvSend ch' r :: evs' =>
      if Nat.eqb ch ch' then r :: sends_on ch evs' else sends_on ch evs'
  | _ :: evs' => sends_on ch evs'
  end.

(** The results of the calls to [http.ReadResponse], in order. *)
Fixpoint responses_read (evs : list Event) : list (Res http.Response) :=
  match evs with
  | [] => []
  | EvReadResponse _ r :: evs' => r :: responses_read evs'
  | _ :: evs' => responses_read evs'
  end.

(** The number of calls to [InvalidateResolution]. *)
Fixpoint invalidations (evs : list Event) : nat :=
  match evs with
  | [] => 0%nat
  | EvInvalidateResolution :: evs' => S (invalidations evs')
  | _ :: evs' => invalidations evs'
  end.

(** The texts written to the buffered writers, in order. *)
Fixpoint buf_writes (evs : list Event) : list (ConnId * string) :=
  match evs with
  | [] => []
  | EvBufWrite c s :: evs' => (c, s) :: buf_writes evs'
  | _ :: evs' => buf_writes evs'
  end.

(** The connections released to a pool, with whether each was queued. *)
Fixpoint releases (evs : list Event) : list (replicaClientConn * bool) :=
  match evs with
  | [] => []
  | EvPoolPut c q :: evs' => (c, q) :: releases evs'
  | _ :: evs' => releases evs'
  end.

(** The transports closed by a call to [net.Conn.Close]. *)
Fixpoint closes (evs : list Event) : list ConnId :=
  match evs with
  | [] => []
  | EvClose c :: evs' => c :: closes evs'
  | _ :: evs' => closes evs'
  end.

(** A run of releases, one [putConn] after the other. *)
Fixpoint putConns (t : replicaClientTransaction) (cs : list replicaClientConn)
  : M unit :=
  match cs with
  | [] => mret tt
  | c :: cs' => putConn t c;; putConns t cs'
  end.

(** The queue of the pool under key [k]; a missing pool holds nothing. *)
Definition pool_queue (w : World) (k : string) : list replicaClientConn :=
  match idlePools w !! k with
  | Some ch => queue ch
  | None => []
  end.

(** Whether a non-blocking send on the pool [k] finds room. *)
Definition has_room (w : World) (k : string) : bool :=
  match idlePools w !! k with
  | Some ch => (length (queue ch) <? cap ch)%nat
  | None => false
  end.

(** Every pool of the registry was made with the capacity of the package
    and holds no more than that. *)
Definition pools_bounded (w : World) : Prop :=
  forall k ch, idlePools w !! k = Some ch ->
    cap ch = ReplicateClientIdlePoolSize /\
    (length (queue ch) <= ReplicateClientIdlePoolSize)%nat.


(** The write head that [start] attaches to a rejection. *)
Definition reported_head (resp : http.Response) : Z :=
  let s := http.Get (http.RespHeader resp) WriteHeadHeader in
  if String.eqb s "" then 0 else fst (strconv.ParseInt s 16 64).

(** ** What the calls change *)

(** What a call leaves alone: the pools and the counter of connections. *)
Definition same_pools (w w' : World) : Prop :=
  idlePools w' = idlePools w /\ nextConn w' = nextConn w.

(** What a call on the writer of [b] leaves alone as well: every other
    connection, and the deadline of [b]. *)
Definition writes_to (b : ConnId) (w w' : World) : Prop :=
  same_pools w w'
  /\ (forall c, c ≠ b -> conn_get w' c = conn_get w c)
  /\ deadline (conn_get w' b) = deadline (conn_get w b).

(** What [SetReadDeadline] does: the deadline of [r], and nothing else. *)
Definition sets_deadline (r : ConnId) (d : option Z) (w w' : World) : Prop :=
  same_pools w w'
  /\ (forall c, c ≠ r -> conn_get w' c = conn_get w c)
  /\ conn_get w' r = with_deadline d (conn_get w r).

(** What a non-blocking send on the pool [k] does: the connection joins
    the queue when there is room, and is dropped otherwise. *)
Definition sends_to_pool (k : string) (c : replicaClientConn) (q : bool)
    (w w' : World) : Prop :=
  conns w' = conns w /\ nextConn w' = nextConn w
  /\ match idlePools w !! k with
     | Some ch =>
         if (length (queue ch) <? cap ch)%nat
         then q = true
              /\ idlePools w' = <[k := {| cap := cap ch; queue := queue ch ++ [c] |}]> (idlePools w)
         else q = false /\ idlePools w' = idlePools w
     | None => q = false /\ idlePools w' = idlePools w
     end.

(** What [Dial] does: on success a connection that did not exist, in its
    first state. *)
Definition dials (env : StartEnv) (host : string) (d : Res ConnId)
    (w w' : World) : Prop :=
  idlePools w' = idlePools w
  /\ match d with
     | Ok c =>
         env_Dial env host = None /\ c = nextConn w /\ nextConn w' = S (nextConn w)
         /\ conn_get w' c = freshConnState
         /\ (forall c', c' ≠ c -> conn_get w' c' = conn_get w c')
     | Err e => env_Dial env host = Some e /\ w' = w
     end.

(** The connection that [takeConn] builds around the transport [r]. *)
Definition connected (r : ConnId) : replicaClientConn :=
  {| raw := Some r; buf := Some r |}.

(** [c] is queued in some pool. *)
Definition pooled (w : World) (c : replicaClientConn) : Prop :=
  exists k ch, idlePools w !! k = Some ch /\ c ∈ queue ch.

(** What a run that holds the connection of transport [r] may change:
    the state of [r], and, when it releases the connection with room in
    the pool [k], the queue of that pool, which [r] joins without a
    deadline. *)
Definition conn_effect (k : string) (r : ConnId) (released : bool)
    (w w' : World) : Prop :=
  nextConn w' = nextConn w
  /\ (forall r', r' ≠ r -> deadline (conn_get w' r') = deadline (conn_get w r'))
  /\ if released
     then deadline (conn_get w' r) = None
          /\ exists ch,
               idlePools w !! k = Some ch
               /\ idlePools w'
                  = <[k := {| cap := cap ch; queue := queue ch ++ [connected r] |}]>
                      (idlePools w)
     else idlePools w' = idlePools w.

(** ** The client in use

    A system is the world together with the write handles that have been
    delivered and not yet committed. A handle is committed once, by the
    caller that received it. *)

Record System : Type := mkSystem {
  world : World;
  owned : list replicaClientTransaction
}.

Definition same_conn (t t' : replicaClientTransaction) : bool :=
  bool_decide (raw (conn t) = raw (conn t')).

Definition disown (t : replicaClientTransaction) (ts : list replicaClientTransaction)
  : list replicaClientTransaction :=
  filter (fun t' => same_conn t t' = false) ts.

Inductive step : System -> System -> Prop :=
| step_NewReplicateClient s ep c w' evs :
    NewReplicateClient ep (world s) = Done c w' evs ->
    step s {| world := w'; owned := owned s |}
| step_Replicate s env ep op t' w' evs :
    is_Some (idlePools (world s) !! BaseURL ep) ->
    Replicate env {| endpoint := ep; idlePool := BaseURL ep |} op (world s)
      = Done t' w' evs ->
    step s {| world := w';
              owned := match chunker t' with
                       | Some _ => t' :: owned s
                       | None => owned s
                       end |}
| step_Write s t p res w' evs :
    t ∈ owned s ->
    Write t p (world s) = Done res w' evs ->
    step s {| world := w'; owned := owned s |}
| step_Commit s env t delta err w' evs :
    t ∈ owned s ->
    Commit env t delta (world s) = Done err w' evs ->
    step s {| world := w'; owned := disown t (owned s) |}.

Inductive reachable : System -> Prop :=
| reachable_init : reachable {| world := init; owned := [] |}
| reachable_step s s' : reachable s -> step s s' -> reachable s'.

(** What holds of every system the client can reach: a pooled connection
    is one that [takeConn] built, sits in one place only, and has no
    deadline; the connection of a live handle is in no pool. *)
Record system_inv (s : System) : Prop := mkInv {
  inv_pooled : forall c, pooled (world s) c ->
    exists r, c = connected r /\ (r < nextConn (world s))%nat
              /\ deadline (conn_get (world s) r) = None;
  inv_nodup : forall k ch, idlePools (world s) !! k = Some ch -> NoDup (queue ch);
  inv_apart : forall k1 k2 ch1 ch2 c, k1 ≠ k2 ->
    idlePools (world s) !! k1 = Some ch1 -> idlePools (world s) !! k2 = Some ch2 ->
    c ∈ queue ch1 -> c ∉ queue ch2;
  inv_owned : forall t, t ∈ owned s ->
    exists r, conn t = connected r /\ chunker t = Some {| Wire := r |}
              /\ (r < nextConn (world s))%nat /\ ~ pooled (world s) (conn t)
}.

(** [env] with the error that comes with the handshake request replaced
    by what [g] gives. *)
Definition with_request_error (g : string -> string -> option error)
    (env : StartEnv) : StartEnv :=
  {| env_ResolveURL := env_ResolveURL env;
     env_Dial := env_Dial env;
     env_NewHTTPRequest := fun m u => (fst (env_NewHTTPRequest env m u), g m u);
     env_DumpRequest := env_DumpRequest env;
     env_Flush := env_Flush env;
     env_Now := env_Now env;
     env_ReadResponse := env_ReadResponse env;
     env_FlushEnd := env_FlushEnd env |}.

(** Every pooled connection has a transport and a buffer, as the ones
    [takeConn] builds. *)
Definition pooled_connected (w : World) : Prop :=
  forall k ch c, idlePools w !! k = Some ch -> c ∈ queue ch ->
    is_Some (raw c) /\ is_Some (buf c).

(** ** A peer to run the client against *)

Module Sample.

Definition ep : Endpoint := {| BaseURL := "http://peer:8080" |}.

Definition peer_url : url.URL :=
  {| url.Host := "peer:8080"; url.Path := ""; url.RawQuery := "" |}.

Definition req : http.Request :=
  {| http.Method := "REPLICATE";
     http.URL := {| url.Host := "peer:8080"; url.Path := "/a/journal";
                    url.RawQuery := "" |};
     http.ReqHeader := ∅;
     http.TransferEncoding := [] |}.

Definition dump (r : http.Request) : Res string :=
  Ok (http.Method r ++ " " ++ url.Path (http.URL r) ++ "?"
      ++ url.RawQuery (http.URL r) ++ " HTTP/1.1" ++ CRLF ++ CRLF).

Definition op : ReplicateOp :=
  {| Journal := "a/journal"; RouteToken := "tok en/1"; NewSpool := true;
     WriteHead := 1234; Result := 7%nat |}.

(** A peer that can be reached and answers the handshake with [r]. *)
Definition env (r : Res http.Response) : StartEnv :=
  {| env_ResolveURL := Ok peer_url;
     env_Dial := fun _ => None;
     env_NewHTTPRequest := fun _ _ => (Some req, None);
     env_DumpRequest := dump;
     env_Flush := None;
     env_Now := 1000;
     env_ReadResponse := r;
     env_FlushEnd := None |}.

(** The same peer, with a discovery collaborator that fails to build the
    request. *)
Definition env_no_request : StartEnv :=
  {| env_ResolveURL := Ok peer_url;
     env_Dial := fun _ => None;
     env_NewHTTPRequest := fun _ _ => (None, Some (errorString "no resolution"));
     env_DumpRequest := dump;
     env_Flush := None;
     env_Now := 1000;
     env_ReadResponse := Err (errorString "unused");
     env_FlushEnd := None |}.

(** An endpoint whose address cannot be resolved. *)
Definition env_unresolved : StartEnv :=
  {| env_ResolveURL := Err (errorString "no such endpoint");
     env_Dial := fun _ => None;
     env_NewHTTPRequest := fun _ _ => (Some req, None);
     env_DumpRequest := dump;
     env_Flush := None;
     env_Now := 1000;
     env_ReadResponse := Err (errorString "unused");
     env_FlushEnd := None |}.

(** A peer that refuses the connection. *)
Definition env_refused : StartEnv :=
  {| env_ResolveURL := Ok peer_url;
     env_Dial := fun _ => Some (errorString "connection refused");
     env_NewHTTPRequest := fun _ _ => (Some req, None);
     env_DumpRequest := dump;
     env_Flush := None;
     env_Now := 1000;
     env_ReadResponse := Err (errorString "unused");
     env_FlushEnd := None |}.

Definition continue : http.Response :=
  {| http.StatusCode := 100; http.RespHeader := ∅; http.Body := "";
     http.Close := false |}.

(** A rejection that reports the write head [head]. *)
Definition conflict (head : string) : http.Response :=
  {| http.StatusCode := 409;
     http.RespHeader := {[ "X-Write-Head" := [head] ]};
     http.Body := "wrong write head";
     http.Close := false |}.

(** A rejection without the header. *)
Definition refusal : http.Response :=
  {| http.StatusCode := 500; http.RespHeader := ∅; http.Body := "no";
     http.Close := false |}.

Definition cenv (r : Res http.Response) : CommitEnv :=
  {| cenv_Flush := None; cenv_Now := 2000; cenv_ReadResponse := r |}.

(** A connection that breaks when the trailer is flushed. *)
Definition cenv_broken : CommitEnv :=
  {| cenv_Flush := Some (errorString "broken pipe"); cenv_Now := 2000;
     cenv_ReadResponse := Err (errorString "unused") |}.

Definition no_content : http.Response :=
  {| http.StatusCode := 204; http.RespHeader := ∅; http.Body := "";
     http.Close := false |}.

Definition quota : http.Response :=
  {| http.StatusCode := 507; http.RespHeader := ∅; http.Body := "quota exceeded";
     http.Close := false |}.

(** The world once a client for [ep] exists. *)
Definition world0 : World := final_world (NewReplicateClient ep init).

Definition client0 : ReplicateClient :=
  {| endpoint := ep; idlePool := BaseURL ep |}.

Definition txn0 : replicaClientTransaction :=
  {| client := client0; chunker := None; conn := zeroConn; request := None |}.

Definition conn_n (n : nat) : replicaClientConn :=
  {| raw := Some n; buf := Some n |}.


(** The handle that [start] delivers against a peer that answers 100. *)
Definition handle : replicaClientTransaction :=
  {| client := client0;
     chunker := Some {| Wire := 0%nat |};
     conn := conn_n 0;
     request := Some (handshake_request op req) |}.

Definition world_open : World :=
  final_world (Replicate (env (Ok continue)) client0 op world0).

(** The world once the handle is committed and its connection released. *)
Definition world_committed : World :=
  final_world (Commit (cenv (Ok no_content)) handle 42 world_open).

End Sample.

(** Unfolds the code of the client down to its calls on connections and
    pools, [takeConn] and [putConn]. *)
Ltac unfold_client :=
  unfold Replicate, start, handshake, rejected, opened, Commit, Write,
    remoteWriteHead, httputil.Write, httputil.Close,
    httputil.NewChunkedWriter, ReadResponse, InvalidateResolution,
    ResolveURL, send, emit, deref, panic;
  unfold mbind, M_bind, mret, M_ret.

(** ** More of the client in use *)

(** The transaction that [Replicate] builds for a client. *)
Definition transaction_of (c : ReplicateClient) : replicaClientTransaction :=
  {| client := c; chunker := None; conn := zeroConn; request := None |}.

(** The text that [chunkedWriter.Write] puts into the buffer for the
    payload [p]: nothing for an empty payload, else the length in
    hexadecimal, the payload, and the line ends that frame them. *)
Definition frame (p : string) : string :=
  if String.eqb p "" then ""
  else ((fmt.verb_x (len p) ++ CRLF) ++ p) ++ CRLF.

Fixpoint frames (ps : list string) : string :=
  match ps with
  | [] => ""
  | p :: ps' => frame p ++ frames ps'
  end.

(** The text that [Commit] puts into the buffer: the terminal chunk and
    the trailer with the delta. *)
Definition commit_text (delta : Z) : string :=
  ("0" ++ CRLF) ++ CommitDeltaHeader ++ ": " ++ fmt.verb_x delta ++ CRLF ++ CRLF.


(** How often the byte [c] occurs in the text. *)
Fixpoint count (c : ascii) (s : string) : nat :=
  match s with
  | EmptyString => 0%nat
  | String c' s' => ((if Ascii.eqb c c' then 1 else 0) + count c s')%nat
  end.

(** Everything the connection [r] was given to send so far: what went to
    the peer, followed by what its writer still holds. *)
Definition stream (w : World) (r : ConnId) : string :=
  wire (conn_get w r) ++ pending (conn_get w r).




(** What a run may do to the registry through the pool [k]: no other
    pool changes, the pool [k] is neither made nor removed and keeps its
    capacity, and its queue does not grow past that capacity. *)
Definition pool_moves (k : string) (w w' : World) : Prop :=
  (forall k', k' ≠ k -> idlePools w' !! k' = idlePools w !! k')
  /\ match idlePools w !! k, idlePools w' !! k with
     | Some ch, Some ch' =>
         cap ch' = cap ch
         /\ (length (queue ch') <= Nat.max (length (queue ch)) (cap ch))%nat
     | None, None => True
     | _, _ => False
     end.

(** The writer of the connection [r] holds no text and no error. *)
Definition flushed (w : World) (r : ConnId) : Prop :=
  pending (conn_get w r) = "" /\ werr (conn_get w r) = None.


(** What a run that holds the connection of transport [r] leaves alone:
    every other connection. *)
Definition keeps_others (r : ConnId) (w w' : World) : Prop :=
  forall r', r' ≠ r -> conn_get w' r' = conn_get w r'.

(** The number of calls to [ResolveURL] and to [net.Dial]. *)
Fixpoint dial_attempts (evs : list Event) : nat :=
  match evs with
  | [] => 0%nat
  | EvResolveURL _ :: evs' => S (dial_attempts evs')
  | EvDial _ _ :: evs' => S (dial_attempts evs')
  | _ :: evs' => dial_attempts evs'
  end.
(** * Properties *)

(** ** Integer conversions *)

Section Conversions.
Import Int64 strconv.

Lemma to_int64_id z : in_int64 z -> to_int64 z = z.
Proof.
  unfold in_int64, to_int64, MinInt64, MaxInt64, modulus. intros H.
  rewrite Z.mod_small; lia.
Qed.

Lemma to_uint64_id z : 0 <= z <= maxUint64 -> to_uint64 z = z.
Proof.
  unfold to_uint64, maxUint64, modulus. intros H. rewrite Z.mod_small; lia.
Qed.

Lemma digit_of_nat (n : nat) :
  (n < 36)%nat ->
  digit_val (byte_val (digit (Z.of_nat n))) = Some (Z.of_nat n)
  /\ Ascii.eqb (digit (Z.of_nat n)) "+"%char = false
  /\ Ascii.eqb (digit (Z.of_nat n)) "-"%char = false.
Proof.
  intros H. do 36 (destruct n as [|n]; [vm_compute; auto |]). lia.
Qed.

Lemma digit_val_digit v :
  0 <= v < 36 -> digit_val (byte_val (digit v)) = Some v.
Proof.
  intros H. rewrite <- (Z2Nat.id v) by lia. apply digit_of_nat. lia.
Qed.

Lemma digit_not_sign v :
  0 <= v < 36 ->
  Ascii.eqb (digit v) "+"%char = false /\ Ascii.eqb (digit v) "-"%char = false.
Proof.
  intros H. rewrite <- (Z2Nat.id v) by lia. apply digit_of_nat. lia.
Qed.

Lemma cutoff64_above base u :
  2 <= base -> 0 <= u <= maxUint64 -> u / base < cutoff64 base.
Proof.
  intros Hb Hu. unfold cutoff64.
  destruct (Z.ltb_spec base 2); [lia |].
  assert (u / base <= maxUint64 / base) by (apply Z.div_le_mono; lia). lia.
Qed.

(** Reading the digits that [formatBits] wrote gives the number back. *)
Lemma ParseUint_loop_formatBits fuel : forall base maxVal u acc,
  2 <= base <= 36 -> maxVal <= maxUint64 ->
  0 <= u <= maxVal -> u < base ^ Z.of_nat fuel ->
  ParseUint_loop base maxVal (cutoff64 base) (formatBits_loop fuel base u acc) 0
  = ParseUint_loop base maxVal (cutoff64 base) acc u.
Proof.
  induction fuel as [|fuel IH]; intros base maxVal u acc Hb Hm Hu Hf.
  - simpl in *. assert (u = 0) by lia. subst. reflexivity.
  - cbn [formatBits_loop]. destruct (Z.ltb_spec u base) as [Hlt|Hge].
    + cbn [ParseUint_loop]. rewrite digit_val_digit by lia.
      destruct (Z.leb_spec base u); [lia |].
      destruct (Z.leb_spec (cutoff64 base) 0) as [Hc|Hc].
      { pose proof (cutoff64_above base 0 ltac:(lia) ltac:(unfold maxUint64; lia)).
        rewrite Z.div_0_l in H0 by lia. lia. }
      cbn zeta. rewrite Z.mul_0_l, Z.add_0_l, to_uint64_id by lia.
      destruct (Z.ltb_spec u 0); [lia |].
      destruct (Z.ltb_spec maxVal u); [lia |]. reflexivity.
    + assert (Hdiv : 0 <= u / base) by (apply Z.div_pos; lia).
      assert (Hmod := Z.mod_pos_bound u base ltac:(lia)).
      assert (Heq := Z.div_mod u base ltac:(lia)).
      assert (Hle : u / base <= u) by nia.
      rewrite IH; [| lia | lia | lia |].
      2: { rewrite Nat2Z.inj_succ, Z.pow_succ_r in Hf by lia.
           apply Z.div_lt_upper_bound; lia. }
      cbn [ParseUint_loop]. rewrite digit_val_digit by lia.
      destruct (Z.leb_spec base (u mod base)); [lia |].
      pose proof (cutoff64_above base u ltac:(lia) ltac:(lia)).
      destruct (Z.leb_spec (cutoff64 base) (u / base)); [lia |].
      cbn zeta.
      replace (u / base * base + u mod base) with u by lia.
      rewrite to_uint64_id by lia.
      destruct (Z.ltb_spec u (u / base * base)); [lia |].
      destruct (Z.ltb_spec maxVal u); [lia |]. reflexivity.
Qed.

Lemma formatBits_loop_head fuel : forall base u acc,
  2 <= base <= 36 -> 0 <= u ->
  exists d rest, 0 <= d < 36 /\
    formatBits_loop (S fuel) base u acc = String (digit d) rest.
Proof.
  induction fuel as [|fuel IH]; intros base u acc Hb Hu.
  - cbn [formatBits_loop]. destruct (Z.ltb_spec u base).
    + exists u, acc. split; [lia | reflexivity].
    + exists (u mod base), acc.
      pose proof (Z.mod_pos_bound u base ltac:(lia)). split; [lia | reflexivity].
  - change (formatBits_loop (S (S fuel)) base u acc)
      with (if u <? base then String (digit u) acc
            else formatBits_loop (S fuel) base (u / base)
                   (String (digit (u mod base)) acc)).
    destruct (Z.ltb_spec u base).
    + exists u, acc. split; [lia | reflexivity].
    + apply IH; [lia |]. apply Z.div_pos; lia.
Qed.

Lemma pow_64_le base : 2 <= base -> 2 ^ 64 <= base ^ 64.
Proof. intros H. apply Z.pow_le_mono_l. lia. Qed.

Lemma ParseUint_formatBits base u :
  2 <= base <= 36 -> 0 <= u <= maxUint64 ->
  ParseUint (formatBits_loop 64 base u "") base 64 = (u, None).
Proof.
  intros Hb Hu.
  destruct (formatBits_loop_head 63 base u "" Hb ltac:(lia)) as (d & rest & Hd & E).
  unfold ParseUint. rewrite E, <- E.
  destruct (Z.leb_spec 2 base); [| lia].
  destruct (Z.leb_spec base 36); [| lia]. cbn [andb].
  rewrite ParseUint_loop_formatBits; [reflexivity | lia | | | ].
  - unfold maxUint64. lia.
  - unfold maxUint64 in *. lia.
  - pose proof (pow_64_le base ltac:(lia)). unfold maxUint64 in *.
    change (Z.of_nat 64) with 64. lia.
Qed.

(** [ParseInt] reads back what [FormatInt] wrote, in every base from 2 to
    36 and for every signed 64-bit value. *)
Lemma ParseInt_FormatInt base i :
  2 <= base <= 36 -> in_int64 i ->
  ParseInt (FormatInt i base) base 64 = (i, None).
Proof.
  intros Hb Hi. unfold in_int64, MinInt64, MaxInt64 in Hi. unfold FormatInt.
  destruct (Z.ltb_spec i 0) as [Hneg|Hpos].
  - assert (Hu : to_uint64 (- to_uint64 i) = - i).
    { unfold to_uint64, modulus.
      replace (i mod 2 ^ 64) with (i + 2 ^ 64).
      2: { apply Z.mod_unique with (q := -1); lia. }
      symmetry. apply Z.mod_unique with (q := -1); lia. }
    rewrite Hu. unfold ParseInt.
    change (Ascii.eqb "-" "+") with false. change (Ascii.eqb "-" "-") with true.
    cbn iota. rewrite ParseUint_formatBits by (unfold maxUint64; lia).
    cbn [negb andb].
    change (2 ^ (64 - 1)) with (2 ^ 63).
    destruct (Z.ltb_spec (2 ^ 63) (- i)); [lia |].
    f_equal. unfold to_int64, modulus.
    destruct (Z.eq_dec i (- 2 ^ 63)) as [->|Hne]; [reflexivity |].
    rewrite (Z.mod_small (- i + 2 ^ 63)) by lia.
    replace (- (- i + 2 ^ 63 - 2 ^ 63) + 2 ^ 63) with (i + 2 ^ 63) by lia.
    rewrite Z.mod_small by lia. lia.
  - rewrite to_uint64_id by (unfold maxUint64; lia).
    destruct (formatBits_loop_head 63 base i "" Hb Hpos) as (d & rest & Hd & E).
    unfold ParseInt. rewrite E.
    destruct (digit_not_sign d Hd) as [-> ->]. rewrite <- E.
    rewrite ParseUint_formatBits by (unfold maxUint64; lia).
    cbn [negb andb].
    change (2 ^ (64 - 1)) with (2 ^ 63).
    destruct (Z.leb_spec (2 ^ 63) i); [lia |].
    rewrite to_int64_id by (unfold in_int64, MinInt64, MaxInt64; lia).
    reflexivity.
Qed.

End Conversions.

Section ConversionExamples.
Import Int64 strconv.

Example FormatInt_42_hex : FormatInt 42 16 = "2a".
Proof. reflexivity. Qed.

Example FormatInt_neg255_hex : FormatInt (-255) 16 = "-ff".
Proof. reflexivity. Qed.

Example FormatInt_min_dec : FormatInt MinInt64 10 = "-9223372036854775808".
Proof. reflexivity. Qed.

Example ParseInt_2a : ParseInt "2a" 16 64 = (42, None).
Proof. reflexivity. Qed.

Example ParseInt_upper : ParseInt "-7F" 16 64 = (-127, None).
Proof. reflexivity. Qed.

Example ParseInt_syntax : ParseInt "4z" 16 64 = (0, Some ErrSyntax).
Proof. reflexivity. Qed.

Example ParseInt_prefix : ParseInt "0x2a" 16 64 = (0, Some ErrSyntax).
Proof. reflexivity. Qed.

Example ParseInt_range_max :
  ParseInt "8000000000000000" 16 64 = (MaxInt64, Some ErrRange).
Proof. reflexivity. Qed.

Example ParseInt_range_min :
  ParseInt "-8000000000000001" 16 64 = (MinInt64, Some ErrRange).
Proof. reflexivity. Qed.

Example ParseInt_min : ParseInt "-8000000000000000" 16 64 = (MinInt64, None).
Proof. reflexivity. Qed.

Example QueryEscape_token : url.QueryEscape "tok en/1" = "tok+en%2F1".
Proof. reflexivity. Qed.

End ConversionExamples.

(** ** The calls on connections and pools *)

Section Calls.

Lemma conn_get_set_conn c st w c' :
  conn_get (set_conn c st w) c' = if decide (c = c') then st else conn_get w c'.
Proof.
  unfold conn_get, set_conn. cbn [conns]. rewrite lookup_insert.
  destruct (decide (c = c')); reflexivity.
Qed.

Lemma conn_get_set_conn_eq c st w : conn_get (set_conn c st w) c = st.
Proof. rewrite conn_get_set_conn. by rewrite decide_True. Qed.

Lemma conn_get_set_conn_ne c st w c' :
  c ≠ c' -> conn_get (set_conn c st w) c' = conn_get w c'.
Proof. intros H. rewrite conn_get_set_conn. by rewrite decide_False. Qed.

Lemma writes_to_deadline b w w' c :
  writes_to b w w' -> deadline (conn_get w' c) = deadline (conn_get w c).
Proof.
  intros (_ & Ho & Hb). destruct (decide (c = b)) as [->|Hne]; [done |].
  by rewrite Ho.
Qed.

Lemma bufio_Write_spec b s w :
  exists res w',
    bufio.Write b s w = Done res w' [EvBufWrite b s]
    /\ writes_to b w w'
    /\ match werr (conn_get w b) with
       | Some e => res = (0, Some e) /\ w' = w
       | None =>
           res = (len s, None)
           /\ werr (conn_get w' b) = None
           /\ pending (conn_get w' b) = pending (conn_get w b) ++ s
           /\ wire (conn_get w' b) = wire (conn_get w b)
       end.
Proof.
  unfold bufio.Write, writes_to, same_pools. cbv zeta.
  destruct (werr (conn_get w b)) as [e|] eqn:E.
  - eexists _, _. split; [reflexivity |]. auto.
  - eexists _, _. split; [reflexivity |]. rewrite conn_get_set_conn_eq. cbn.
    repeat split; auto. intros c Hc. by rewrite conn_get_set_conn_ne.
Qed.

Lemma bufio_Flush_spec tr b w :
  exists ferr w',
    bufio.Flush tr b w = Done ferr w' [EvFlush b (is_nil ferr)]
    /\ writes_to b w w'
    /\ (ferr = None -> werr (conn_get w' b) = None /\ pending (conn_get w' b) = "")
    /\ (werr (conn_get w b) = None -> pending (conn_get w b) ≠ "" -> ferr = tr)
    /\ (werr (conn_get w b) = None -> tr = None -> ferr = None).
Proof.
  unfold bufio.Flush, writes_to, same_pools. cbv zeta.
  destruct (werr (conn_get w b)) as [e|] eqn:E.
  - exists (Some e), w. split; [reflexivity |]. repeat split; auto; discriminate.
  - destruct (String.eqb_spec (pending (conn_get w b)) "") as [Hp|Hp].
    + exists None, w. split; [reflexivity |]. repeat split; auto. done.
    + destruct tr as [e|].
      * eexists (Some e), _. split; [reflexivity |]. rewrite conn_get_set_conn_eq. cbn.
        repeat split; auto; try discriminate.
        intros c Hc. by rewrite conn_get_set_conn_ne.
      * eexists None, _. split; [reflexivity |]. rewrite conn_get_set_conn_eq. cbn.
        repeat split; auto.
        intros c Hc. by rewrite conn_get_set_conn_ne.
Qed.

Lemma SetReadDeadline_spec r d w :
  exists w',
    SetReadDeadline r d w = Done tt w' [EvSetReadDeadline r d]
    /\ sets_deadline r d w w'.
Proof.
  unfold SetReadDeadline, sets_deadline, same_pools.
  eexists. split; [reflexivity |]. rewrite conn_get_set_conn_eq.
  repeat split; auto. intros c Hc. by rewrite conn_get_set_conn_ne.
Qed.

Lemma pool_try_send_spec k c w :
  exists q w',
    pool_try_send k c w = Done tt w' [EvPoolPut c q]
    /\ sends_to_pool k c q w w'.
Proof.
  unfold pool_try_send, sends_to_pool.
  destruct (idlePools w !! k) as [ch|] eqn:E.
  - destruct (length (queue ch) <? cap ch)%nat eqn:Hl.
    + eexists _, _. split; [reflexivity |]. auto.
    + eexists _, _. split; [reflexivity |]. auto.
  - eexists _, _. split; [reflexivity |]. auto.
Qed.

(** A non-blocking receive on the pool [k] takes the oldest connection
    of the queue, or finds nothing. *)
Lemma pool_try_recv_cases k w :
  (exists n c rest,
      idlePools w !! k = Some {| cap := n; queue := c :: rest |}
      /\ pool_try_recv k w
         = Done (Some c) (set_pool k {| cap := n; queue := rest |} w) [EvPoolTake c])
  \/ (pool_queue w k = [] /\ pool_try_recv k w = Done None w []).
Proof.
  unfold pool_try_recv, pool_queue.
  destruct (idlePools w !! k) as [[n [|c rest]]|] eqn:E; eauto 10.
Qed.

Lemma Dial_spec env host w :
  exists d w',
    Dial env host w
      = Done d w' [EvDial host (match d with Ok _ => true | Err _ => false end)]
    /\ dials env host d w w'.
Proof.
  unfold Dial, dials. destruct (env_Dial env host) as [e|].
  - exists (Err e), w. split; [reflexivity |]. auto.
  - cbv zeta. eexists (Ok (nextConn w)), _. split; [reflexivity |].
    rewrite conn_get_set_conn_eq. repeat split; auto.
    intros c' Hc. by rewrite conn_get_set_conn_ne.
Qed.

(** [takeConn] along its four paths: a pooled connection, a failed
    resolution, a failed dial, a new connection. *)
Lemma takeConn_cases env t w :
  (exists n c rest,
      idlePools w !! idlePool (client t) = Some {| cap := n; queue := c :: rest |}
      /\ takeConn env t w
         = Done (c, None)
             (set_pool (idlePool (client t)) {| cap := n; queue := rest |} w)
             [EvPoolTake c])
  \/ (pool_queue w (idlePool (client t)) = []
      /\ ((exists e,
             env_ResolveURL env = Err e
             /\ takeConn env t w = Done (zeroConn, Some e) w [EvResolveURL false])
          \/ (exists u e,
                env_ResolveURL env = Ok u /\ env_Dial env (url.Host u) = Some e
                /\ takeConn env t w
                   = Done (zeroConn, Some e) w
                       [EvResolveURL true; EvDial (url.Host u) false;
                        EvInvalidateResolution])
          \/ (exists u w',
                env_ResolveURL env = Ok u /\ env_Dial env (url.Host u) = None
                /\ takeConn env t w
                   = Done ({| raw := Some (nextConn w); buf := Some (nextConn w) |},
                           None) w'
                       [EvResolveURL true; EvDial (url.Host u) true]
                /\ dials env (url.Host u) (Ok (nextConn w)) w w'))).
Proof.
  unfold takeConn, ResolveURL, InvalidateResolution, emit.
  unfold mbind, M_bind, mret, M_ret.
  destruct (pool_try_recv_cases (idlePool (client t)) w)
    as [(n & c & rest & Hin & ->)|(Hq & ->)].
  - left. eauto 10.
  - right. split; [assumption |]. cbn [after app].
    destruct (env_ResolveURL env) as [u|e]; [| left; eauto].
    cbn [after app].
    destruct (Dial_spec env (url.Host u) w) as (d & w' & -> & Hd).
    destruct d as [c|e]; cbn [after app].
    + right; right. pose proof Hd as (_ & Hn & -> & _).
      exists u, w'. auto.
    + right; left. destruct Hd as (_ & He & ->). eauto.
Qed.

(** [putConn] clears the deadline of the connection, then offers it to
    the pool. *)
Lemma putConn_spec t c r w :
  raw c = Some r ->
  exists q w1 w',
    putConn t c w = Done tt w' [EvSetReadDeadline r None; EvPoolPut c q]
    /\ sets_deadline r None w w1
    /\ sends_to_pool (idlePool (client t)) c q w1 w'.
Proof.
  intros Hr. unfold putConn, deref. unfold mbind, M_bind, mret, M_ret.
  rewrite Hr. cbn [after app].
  destruct (SetReadDeadline_spec r None w) as (w1 & -> & H1). cbn [after app].
  destruct (pool_try_send_spec (idlePool (client t)) c w1) as (q & w' & -> & H2).
  cbn [after app]. eauto 10.
Qed.

Lemma putConn_nil t c w : raw c = None -> putConn t c w = Panicked w [].
Proof.
  intros Hr. unfold putConn, deref. unfold mbind, M_bind. rewrite Hr. reflexivity.
Qed.

End Calls.

(** The call the computation [t] is waiting on: the innermost scrutinee
    on its spine. *)
Ltac head_of t :=
  lazymatch t with
  | match ?x with _ => _ end => head_of x
  | after _ ?x => head_of x
  | ?f _ =>
      lazymatch f with
      | match ?x with _ => _ end => head_of x
      | _ => t
      end
  | _ => t
  end.

(** One step of a run whose outcome the goal names, [o = t -> _]: the
    call [t] is waiting on is replaced by what it returns. *)
Ltac run_step :=
  lazymatch goal with
  | |- _ = ?t -> _ =>
      let h := head_of t in
      lazymatch h with
      | Done _ _ _ => fail
      | Panicked _ _ => fail
      | bufio.Write ?b ?s ?w =>
          let H := fresh "Hwrite" in let R := fresh "Hres" in
          destruct (bufio_Write_spec b s w) as (? & ? & -> & H & R)
      | bufio.Flush ?tr ?b ?w =>
          let H := fresh "Hflush" in let R := fresh "Hok" in
          let S := fresh "Htr" in let N := fresh "Hnil" in
          destruct (bufio_Flush_spec tr b w) as (? & ? & -> & H & R & S & N)
      | SetReadDeadline ?r ?d ?w =>
          let H := fresh "Hdl" in
          destruct (SetReadDeadline_spec r d w) as (? & -> & H)
      | pool_try_send ?k ?c ?w =>
          let H := fresh "Hput" in
          destruct (pool_try_send_spec k c w) as (? & ? & -> & H)
      | pool_try_recv ?k ?w =>
          let H := fresh "Htake" in
          destruct (pool_try_recv_cases k w) as [(? & ? & ? & H & ->)|(H & ->)]
      | Dial ?env ?host ?w =>
          let H := fresh "Hdial" in
          destruct (Dial_spec env host w) as (? & ? & -> & H)
      | takeConn ?env ?t ?w =>
          let H := fresh "Htake" in let D := fresh "Hdial" in
          destruct (takeConn_cases env t w)
            as [(? & ? & ? & H & ->)
               |(H & [(? & ? & ->)|[(? & ? & ? & ? & ->)|(? & ? & ? & ? & -> & D)]])]
      | putConn ?t ?c ?w =>
          let H := fresh "Hdl" in let P := fresh "Hput" in
          first
            [ destruct (putConn_spec t c _ w ltac:(first [eassumption | reflexivity]))
                as (? & ? & ? & -> & H & P)
            | rewrite (putConn_nil t c w) by first [assumption | reflexivity] ]
      | _ => destruct h eqn:?
      end;
      simplify_eq;
      cbn [after app fst snd negb andb is_nil raw buf]
  end.

(** Runs the computation [t] of the goal along each of its paths, leaving
    one goal per path with the outcome in place of [t]. *)
Ltac run_client t :=
  let o := fresh "o" in
  let E := fresh "E" in
  remember t as o eqn:E; revert E;
  unfold_client; cbv beta zeta;
  repeat run_step;
  intros ->;
  cbn [events events_of final_world panicked] in *.


(** ** Reading the log of a run *)

Section Logs.

Lemma sends_on_app ch e1 e2 :
  sends_on ch (e1 ++ e2) = (sends_on ch e1 ++ sends_on ch e2)%list.
Proof.
  induction e1 as [|ev e1 IH]; [reflexivity |].
  destruct ev; cbn [sends_on app]; try apply IH.
  destruct (Nat.eqb ch ch0); cbn [app]; by rewrite IH.
Qed.

Lemma responses_read_app e1 e2 :
  responses_read (e1 ++ e2) = (responses_read e1 ++ responses_read e2)%list.
Proof.
  induction e1 as [|ev e1 IH]; [reflexivity |].
  destruct ev; cbn [responses_read app]; by rewrite ?IH.
Qed.

Lemma closes_app e1 e2 : closes (e1 ++ e2) = (closes e1 ++ closes e2)%list.
Proof.
  induction e1 as [|ev e1 IH]; [reflexivity |].
  destruct ev; cbn [closes app]; by rewrite ?IH.
Qed.

End Logs.

(** Computes the readings of an explicit log. *)
Ltac read_log :=
  cbn [events events_of final_world panicked sends_on responses_read
       invalidations buf_writes releases closes app] in *;
  rewrite ?Nat.eqb_refl in *;
  cbn [events events_of final_world panicked sends_on responses_read
       invalidations buf_writes releases closes app] in *.

(** ** Acquiring a connection *)

Section Acquire.

(** C6, as amended: with nothing to take from the pool, a failed dial
    sends exactly one invalidation to the endpoint, after the dial and
    before the error reaches the result channel; a failed resolution
    surfaces its error without any invalidation; either way the world,
    and with it every pool, is left as it was. *)
Theorem start_acquire_failure env op t w :
  pool_queue w (idlePool (client t)) = [] ->
  (forall e, env_ResolveURL env = Err e ->
     start env op t w
       = Done t w [EvResolveURL false; EvSend (Result op) (error_result e 0)]
     /\ invalidations (events_of (start env op t) w) = 0%nat)
  /\ (forall u e, env_ResolveURL env = Ok u -> env_Dial env (url.Host u) = Some e ->
     start env op t w
       = Done t w [EvResolveURL true; EvDial (url.Host u) false;
                   EvInvalidateResolution; EvSend (Result op) (error_result e 0)]
     /\ invalidations (events_of (start env op t) w) = 1%nat).
Proof.
  intros Hq.
  destruct (takeConn_cases env t w)
    as [(n & c & rest & Hin & E)
       |(_ & [(e & He & E)|[(u & e & Hu & He & E)|(u & w' & Hu & He & E & _)]])].
  { unfold pool_queue in Hq. rewrite Hin in Hq. discriminate. }
  all: unfold events_of, start; unfold mbind, M_bind; rewrite E.
  all: split; [intros e' He' | intros u' e' Hu' He'].
  all: try congruence.
  - replace e' with e by congruence. split; reflexivity.
  - assert (u' = u) as -> by congruence.
    replace e' with e by congruence. split; reflexivity.
Qed.

(** C6 fails here: the address of the peer cannot be resolved, the error
    reaches the result channel, and the endpoint is sent no invalidation. *)
Lemma start_unresolved_no_invalidation :
  pool_queue Sample.world0 (idlePool (client Sample.txn0)) = []
  /\ events_of (start Sample.env_unresolved Sample.op Sample.txn0) Sample.world0
     = [EvResolveURL false;
        EvSend 7 (error_result (errorString "no such endpoint") 0)]
  /\ invalidations
       (events_of (start Sample.env_unresolved Sample.op Sample.txn0) Sample.world0)
     = 0%nat.
Proof. vm_compute. auto. Qed.

Lemma start_acquire_failure_witness :
  start Sample.env_refused Sample.op Sample.txn0 Sample.world0
    = Done Sample.txn0 Sample.world0
        [EvResolveURL true; EvDial "peer:8080" false; EvInvalidateResolution;
         EvSend 7 (error_result (errorString "connection refused") 0)]
  /\ invalidations
       (events_of (start Sample.env_refused Sample.op Sample.txn0) Sample.world0)
     = 1%nat.
Proof.
  assert (Hq : pool_queue Sample.world0 (idlePool (client Sample.txn0)) = [])
    by (vm_compute; reflexivity).
  exact (proj2 (start_acquire_failure Sample.env_refused Sample.op Sample.txn0
                  Sample.world0 Hq)
           Sample.peer_url (errorString "connection refused") eq_refl eq_refl).
Defined.

End Acquire.

(** ** The handshake *)

Section Handshake.
Import Int64 strconv.





End Handshake.

(** ** What reaches the result channel *)

Section Delivery.

(** A run of [start] that is given a request delivers exactly one
    result, whatever the peer and the network do. *)
Lemma start_delivers_once env op t w req rerr :
  pooled_connected w ->
  env_NewHTTPRequest env "REPLICATE" ("/" ++ Journal op) = (Some req, rerr) ->
  panicked (start env op t w) = false
  /\ exists r, sends_on (Result op) (events_of (start env op t) w) = [r].
Proof.
  intros Hwf Hreq. unfold events_of.
  run_client (start env op t w).
  all: read_log.
  all: try (split; [reflexivity | eexists; reflexivity]).
  all: match goal with
       | H : idlePools _ !! _ = Some {| cap := _; queue := ?c :: _ |} |- _ =>
           destruct (Hwf _ _ c H ltac:(left)) as [[? ?] [? ?]]; congruence
       end.
Qed.

(** A failed acquisition delivers its error, and nothing else. *)
Lemma start_acquire_error env op t w c e w1 evs :
  takeConn env t w = Done (c, Some e) w1 evs ->
  start env op t w = Done t w1 (evs ++ [EvSend (Result op) (error_result e 0)]).
Proof.
  intros E. unfold start. unfold mbind, M_bind. rewrite E. reflexivity.
Qed.

Lemma takeConn_sends_nothing env t w ch :
  sends_on ch (events_of (takeConn env t) w) = [].
Proof.
  unfold events_of.
  destruct (takeConn_cases env t w)
    as [(n & c & rest & Hin & ->)
       |(_ & [(e & _ & ->)|[(u & e & _ & _ & ->)|(u & w' & _ & _ & -> & _)]])];
    reflexivity.
Qed.

(** C2, at the input that breaks it: the connection is acquired, the
    discovery collaborator returns no request and an error, and [start]
    panics on the nil request with nothing sent on the result channel. *)
Theorem start_nil_request_sends_nothing :
  fst (env_NewHTTPRequest Sample.env_no_request "REPLICATE"
         ("/" ++ Journal Sample.op)) = None
  /\ panicked (start Sample.env_no_request Sample.op Sample.txn0 Sample.world0)
     = true
  /\ sends_on (Result Sample.op)
       (events_of (start Sample.env_no_request Sample.op Sample.txn0)
          Sample.world0)
     = [].
Proof. vm_compute. auto. Qed.

(** C9: the error that comes with the handshake request never reaches the
    run, which is the same whatever that error is; and once a connection
    is held, a nil request makes [start] panic where it stands, with
    nothing sent on the result channel. *)
Theorem start_discards_request_error env op t w :
  (forall g, start (with_request_error g env) op t w = start env op t w)
  /\ (forall c w1 evs,
        takeConn env t w = Done (c, None) w1 evs ->
        fst (env_NewHTTPRequest env "REPLICATE" ("/" ++ Journal op)) = None ->
        start env op t w = Panicked w1 evs
        /\ sends_on (Result op) (events_of (start env op t) w) = []).
Proof.
  split.
  - intros g. unfold start, handshake.
    cbn [with_request_error env_NewHTTPRequest].
    destruct (env_NewHTTPRequest env "REPLICATE" ("/" ++ Journal op)).
    reflexivity.
  - intros c w1 evs Htake Hreq.
    pose proof (takeConn_sends_nothing env t w (Result op)) as Hno.
    unfold events_of in *. rewrite Htake in Hno. cbn [events] in Hno.
    unfold start, handshake. unfold mbind, M_bind. rewrite Htake.
    destruct (env_NewHTTPRequest env "REPLICATE" ("/" ++ Journal op)) as [req rerr].
    cbn [fst] in Hreq. subst req. cbn [deref panic after events].
    rewrite app_nil_r. auto.
Qed.

Lemma start_discards_request_error_witness :
  start Sample.env_no_request Sample.op Sample.txn0 Sample.world0
  = Panicked
      (final_world (takeConn Sample.env_no_request Sample.txn0 Sample.world0))
      [EvResolveURL true; EvDial "peer:8080" true].
Proof.
  refine (proj1 (proj2 (start_discards_request_error Sample.env_no_request
                          Sample.op Sample.txn0 Sample.world0)
                   (Sample.conn_n 0) _ _ _ _)).
  - vm_compute. reflexivity.
  - reflexivity.
Defined.

End Delivery.

(** ** Releasing a connection *)

Section Release.

Lemma writes_to_pools b w w' : writes_to b w w' -> idlePools w' = idlePools w.
Proof. by intros ((? & _) & _). Qed.

Lemma sets_deadline_pools r d w w' :
  sets_deadline r d w w' -> idlePools w' = idlePools w.
Proof. by intros ((? & _) & _). Qed.

Lemma sets_deadline_deadline r d w w' c :
  sets_deadline r d w w' ->
  deadline (conn_get w' c) = if decide (c = r) then d else deadline (conn_get w c).
Proof.
  intros (_ & Ho & Hr). destruct (decide (c = r)) as [->|Hne].
  - by rewrite Hr.
  - by rewrite Ho.
Qed.


Lemma sends_to_pool_conn_get k c q w w' c' :
  sends_to_pool k c q w w' -> conn_get w' c' = conn_get w c'.
Proof. intros (Hc & _). unfold conn_get. by rewrite Hc. Qed.

Lemma sends_to_pool_queue k c q w0 w w' :
  idlePools w = idlePools w0 ->
  sends_to_pool k c q w w' ->
  q = has_room w0 k
  /\ pool_queue w' k = (if q then pool_queue w0 k ++ [c] else pool_queue w0 k)%list
  /\ (q = false -> idlePools w' = idlePools w0).
Proof.
  intros Hp (_ & _ & H). unfold has_room, pool_queue. rewrite Hp in H.
  destruct (idlePools w0 !! k) as [ch|] eqn:E.
  - destruct (length (queue ch) <? cap ch)%nat; destruct H as [-> H].
    + rewrite H, lookup_insert_eq. cbn. repeat split; auto. discriminate.
    + rewrite H, E. repeat split; auto.
  - destruct H as [-> H]. rewrite H, E. repeat split; auto.
Qed.

Lemma released_deadline k c q r d w w1 w' :
  sets_deadline r d w w1 -> sends_to_pool k c q w1 w' ->
  deadline (conn_get w' r) = d.
Proof.
  intros Hd Hs. rewrite (sends_to_pool_conn_get _ _ _ _ _ _ Hs).
  rewrite (sets_deadline_deadline _ _ _ _ r Hd). by rewrite decide_True.
Qed.

End Release.

(** ** The commit *)

Section Commit.




End Commit.

(** ** The bound of the pool *)

Section PoolBound.

Lemma init_pools_bounded : pools_bounded init.
Proof. intros k ch H. cbn in H. by rewrite lookup_empty in H. Qed.

Lemma NewReplicateClient_pools_bounded ep w :
  pools_bounded w -> pools_bounded (final_world (NewReplicateClient ep w)).
Proof.
  intros Hw k ch. unfold NewReplicateClient. cbn [final_world].
  destruct (idlePools w !! BaseURL ep) eqn:E; [apply Hw |].
  cbn [set_pool idlePools].
  destruct (decide (BaseURL ep = k)) as [<-|Hne];
    [rewrite lookup_insert_eq | rewrite lookup_insert_ne by done; apply Hw].
  intros [= <-]. cbn. split; [reflexivity | unfold ReplicateClientIdlePoolSize; lia].
Qed.






End PoolBound.

(** ** The order of the exchange *)

Section Framing.

(** What [Commit] writes: the terminal chunk, then the trailer, and
    nothing after them. *)
Lemma Commit_writes env t delta w b :
  chunker t = Some {| Wire := b |} -> buf (conn t) = Some b ->
  exists rest,
    events_of (Commit env t delta) w
      = EvBufWrite b ("0" ++ CRLF)
        :: EvBufWrite b (CommitDeltaHeader ++ ": " ++ fmt.verb_x delta
                         ++ CRLF ++ CRLF)
        :: rest
    /\ buf_writes rest = [].
Proof.
  intros Hcw Hb. unfold events_of.
  run_client (Commit env t delta w).
  all: cbn [Wire]; eexists; split; reflexivity.
Qed.

(** C5: a result that carries a write handle is the last effect of
    [start], and comes after the request head was written and flushed,
    the response was read with status 100 and the deadline was cleared;
    nothing was written to a buffer before the request head. [Commit] on
    that handle writes the terminal chunk of the framer first and the
    trailer second, and writes nothing else. *)
Theorem sequential_framing env op t w res t' :
  In res (sends_on (Result op) (events_of (start env op t) w)) ->
  Writer res = Some t' ->
  exists pre b rd resp reqBytes,
    events_of (start env op t) w
      = (pre ++ [EvBufWrite b reqBytes; EvFlush b true;
                 EvSetReadDeadline rd (Some (env_Now env + time.Minute));
                 EvReadResponse b (Ok resp);
                 EvSetReadDeadline rd None;
                 EvSend (Result op) res])%list
    /\ buf_writes pre = [] /\ responses_read pre = []
    /\ http.StatusCode resp = http.StatusContinue
    /\ chunker t' = Some {| Wire := b |} /\ buf (conn t') = Some b
    /\ forall cenv delta w2,
         exists rest,
           events_of (Commit cenv t' delta) w2
             = EvBufWrite b ("0" ++ CRLF)
               :: EvBufWrite b (CommitDeltaHeader ++ ": " ++ fmt.verb_x delta
                                ++ CRLF ++ CRLF)
               :: rest
           /\ buf_writes rest = [].
Proof.
  unfold events_of.
  run_client (start env op t w).
  all: read_log; cbn [In]; intros Hin Hw.
  all: repeat match goal with H : _ \/ _ |- _ => destruct H as [<-|H] end.
  all: try contradiction; try discriminate.
  all: cbn [Writer] in Hw; injection Hw as <-.
  all: rewrite negb_false_iff, Z.eqb_eq in *.
  - eexists [EvPoolTake _], _, _, _, _.
    split; [reflexivity |]. repeat split; auto.
    intros. by apply Commit_writes.
  - eexists [EvResolveURL true; EvDial _ true], _, _, _, _.
    split; [reflexivity |]. repeat split; auto.
    intros. by apply Commit_writes.
Qed.

Lemma sequential_framing_witness :
  exists rest,
    events_of (Commit (Sample.cenv (Ok Sample.no_content)) Sample.handle 42)
      Sample.world_open
    = EvBufWrite 0%nat ("0" ++ CRLF)
      :: EvBufWrite 0%nat ("X-Commit-Delta: 2a" ++ CRLF ++ CRLF)
      :: rest
    /\ buf_writes rest = [].
Proof.
  destruct (sequential_framing (Sample.env (Ok Sample.continue)) Sample.op
              Sample.txn0 Sample.world0
              {| Error := None; ErrorWriteHead := 0; Writer := Some Sample.handle |}
              Sample.handle
              ltac:(vm_compute; left; reflexivity) eq_refl)
    as (pre & b & rd & resp & reqBytes & _ & _ & _ & _ & Hcw & _ & Hcommit).
  injection Hcw as <-.
  exact (Hcommit (Sample.cenv (Ok Sample.no_content)) 42 Sample.world_open).
Defined.

End Framing.

(** ** The write handle *)

Section Handle.






(** Committing twice. The first commit released the connection to the
    pool; the second sets a deadline on that pooled connection, and when
    no response comes the connection stays in the pool with the deadline.
    That idle connections have no deadline is a property of systems in
    which a handle is committed once. *)
Example second_commit_on_pooled_connection :
  pool_queue Sample.world_committed (idlePool (client Sample.handle))
    = [Sample.conn_n 0]
  /\ deadline (conn_get Sample.world_committed 0%nat) = None
  /\ pool_queue
       (final_world (Commit (Sample.cenv (Err (errorString "i/o timeout")))
                       Sample.handle 7 Sample.world_committed))
       (idlePool (client Sample.handle))
     = [Sample.conn_n 0]
  /\ deadline
       (conn_get
          (final_world (Commit (Sample.cenv (Err (errorString "i/o timeout")))
                          Sample.handle 7 Sample.world_committed))
          0%nat)
     = Some (2000 + time.Minute).
Proof. vm_compute. auto. Qed.

End Handle.

(** ** The encodings of offsets on the wire *)

Section Encoding.
Import Int64 strconv.

Lemma shouldEscape_digit v : 0 <= v < 36 -> url.shouldEscape (digit v) = false.
Proof.
  intros H. rewrite <- (Z2Nat.id v) by lia.
  assert (Hn : (Z.to_nat v < 36)%nat) by lia. revert Hn.
  generalize (Z.to_nat v) as n. intros n Hn.
  do 36 (destruct n as [|n]; [vm_compute; reflexivity |]). lia.
Qed.

Lemma QueryEscape_formatBits fuel : forall base u acc,
  2 <= base <= 36 -> 0 <= u ->
  url.QueryEscape acc = acc ->
  url.QueryEscape (formatBits_loop fuel base u acc) = formatBits_loop fuel base u acc.
Proof.
  induction fuel as [|fuel IH]; intros base u acc Hb Hu Hacc; [exact Hacc |].
  cbn [formatBits_loop]. destruct (Z.ltb_spec u base).
  - cbn [url.QueryEscape]. rewrite shouldEscape_digit by lia. by rewrite Hacc.
  - apply IH; [lia | apply Z.div_pos; lia |].
    pose proof (Z.mod_pos_bound u base ltac:(lia)).
    cbn [url.QueryEscape]. rewrite shouldEscape_digit by lia. by rewrite Hacc.
Qed.

(** The text of a number goes through [QueryEscape] unchanged. *)
Lemma QueryEscape_FormatInt i base :
  2 <= base <= 36 -> url.QueryEscape (FormatInt i base) = FormatInt i base.
Proof.
  intros Hb. unfold FormatInt.
  assert (Hu : forall z, 0 <= to_uint64 z)
    by (intros z; unfold to_uint64, modulus;
        pose proof (Z.mod_pos_bound z (2 ^ 64) ltac:(lia)); lia).
  destruct (i <? 0).
  - cbn [url.QueryEscape].
    change (url.shouldEscape "-") with false. cbv iota.
    f_equal. apply QueryEscape_formatBits; auto.
  - apply QueryEscape_formatBits; auto.
Qed.

Lemma FormatInt_not_empty i base : 2 <= base <= 36 -> FormatInt i base ≠ "".
Proof.
  intros Hb. unfold FormatInt.
  assert (Hu : forall z, 0 <= to_uint64 z)
    by (intros z; unfold to_uint64, modulus;
        pose proof (Z.mod_pos_bound z (2 ^ 64) ltac:(lia)); lia).
  destruct (i <? 0); [discriminate |].
  destruct (formatBits_loop_head 63 base (to_uint64 i) "" Hb (Hu i))
    as (d & rest & _ & ->). discriminate.
Qed.

Lemma string_app_assoc (a b c : string) : (a ++ b) ++ c = a ++ (b ++ c).
Proof.
  induction a as [|x a IH]; [reflexivity |].
  change (String x ((a ++ b) ++ c) = String x (a ++ b ++ c)). by rewrite IH.
Qed.

(** The query of the handshake request, key by key in sorted order. *)
Lemma handshake_query op : 
  url.Encode (queryArgs op)
  = "newSpool=" ++ FormatBool (NewSpool op)
    ++ "&routeToken=" ++ url.QueryEscape (RouteToken op)
    ++ "&writeHead=" ++ FormatInt (WriteHead op) 10.
Proof.
  unfold url.Encode.
  change (url.sort_strings _) with ["newSpool"; "routeToken"; "writeHead"].
  cbn [fold_left].
  change (url.Get_all (queryArgs op) "newSpool")
    with [FormatBool (NewSpool op)].
  change (url.Get_all (queryArgs op) "routeToken") with [RouteToken op].
  change (url.Get_all (queryArgs op) "writeHead")
    with [FormatInt (WriteHead op) 10].
  change (url.QueryEscape "newSpool") with "newSpool".
  change (url.QueryEscape "routeToken") with "routeToken".
  change (url.QueryEscape "writeHead") with "writeHead".
  cbn [url.Encode_vals].
  rewrite QueryEscape_FormatInt by lia.
  assert (Hb : url.QueryEscape (FormatBool (NewSpool op))
               = FormatBool (NewSpool op))
    by (destruct (NewSpool op); reflexivity).
  rewrite Hb.
  generalize (FormatInt (WriteHead op) 10) as head.
  generalize (url.QueryEscape (RouteToken op)) as token.
  intros token head.
  destruct (NewSpool op); simpl.
  all: rewrite string_app_assoc; reflexivity.
Qed.

(** C7: the write head of the request goes into the query in base 10; the
    write head a peer reports is read in base 16; the commit delta is
    written into the trailer in base 16; and each text reads back, in its
    base, to the very 64-bit value it was written from. *)
Theorem offset_encodings op req delta h resp :
  in_int64 (WriteHead op) -> in_int64 delta -> in_int64 h ->
  http.Get (http.RespHeader resp) WriteHeadHeader = FormatInt h 16 ->
  url.RawQuery (http.URL (handshake_request op req))
    = "newSpool=" ++ FormatBool (NewSpool op)
      ++ "&routeToken=" ++ url.QueryEscape (RouteToken op)
      ++ "&writeHead=" ++ FormatInt (WriteHead op) 10
  /\ ParseInt (FormatInt (WriteHead op) 10) 10 64 = (WriteHead op, None)
  /\ (forall w, remoteWriteHead resp w = Done h w [])
  /\ (forall env t w b,
        chunker t = Some {| Wire := b |} -> buf (conn t) = Some b ->
        exists rest,
          events_of (Commit env t delta) w
            = EvBufWrite b ("0" ++ CRLF)
              :: EvBufWrite b ("X-Commit-Delta: " ++ FormatInt delta 16
                               ++ CRLF ++ CRLF)
              :: rest)
  /\ ParseInt (FormatInt delta 16) 16 64 = (delta, None).
Proof.
  intros Hwh Hdelta Hh Hhead.
  split; [apply handshake_query |].
  split; [apply ParseInt_FormatInt; [lia | assumption] |].
  split.
  { intros w. unfold remoteWriteHead. rewrite Hhead.
    destruct (String.eqb_spec (FormatInt h 16) "") as [E|_].
    - by apply FormatInt_not_empty in E; [| lia].
    - rewrite ParseInt_FormatInt by (lia || assumption). reflexivity. }
  split; [| apply ParseInt_FormatInt; [lia | assumption]].
  intros env t w b Hcw Hb.
  destruct (Commit_writes env t delta w b Hcw Hb) as (rest & E & _).
  exists rest. exact E.
Qed.

Lemma offset_encodings_witness :
  url.RawQuery (http.URL (handshake_request Sample.op Sample.req))
    = "newSpool=true&routeToken=tok+en%2F1&writeHead=1234"
  /\ remoteWriteHead (Sample.conflict "2a") Sample.world0
     = Done 42 Sample.world0 []
  /\ FormatInt 42 16 = "2a" /\ FormatInt 42 10 = "42".
Proof.
  destruct (offset_encodings Sample.op Sample.req 42 42 (Sample.conflict "2a")
              ltac:(vm_compute; split; discriminate)
              ltac:(vm_compute; split; discriminate)
              ltac:(vm_compute; split; discriminate)
              ltac:(vm_compute; reflexivity))
    as (Hquery & _ & Hhead & _).
  split; [rewrite Hquery; vm_compute; reflexivity |].
  split; [apply Hhead |]. split; vm_compute; reflexivity.
Defined.

End Encoding.

(** ** Idle connections carry no deadline *)

Section Effects.

Lemma effect_refl k r w : conn_effect k r false w w.
Proof. repeat split. Qed.

Lemma effect_write k r b q w w1 w2 :
  writes_to b w w1 -> conn_effect k r q w1 w2 -> conn_effect k r q w w2.
Proof.
  intros Hw (Hn & Hd & Hp). pose proof Hw as ((Hpools & Hnext) & _).
  split; [congruence |]. split.
  - intros r' Hr'. rewrite (Hd r' Hr'). by apply (writes_to_deadline b).
  - destruct q; [| congruence].
    destruct Hp as (Hnone & ch & Hk & Hins). split; [exact Hnone |].
    exists ch. rewrite <- Hpools. auto.
Qed.

Lemma effect_deadline k r d q w w1 w2 :
  sets_deadline r d w w1 -> conn_effect k r q w1 w2 -> conn_effect k r q w w2.
Proof.
  intros Hs (Hn & Hd & Hp). pose proof Hs as ((Hpools & Hnext) & _).
  split; [congruence |]. split.
  - intros r' Hr'. rewrite (Hd r' Hr').
    rewrite (sets_deadline_deadline _ _ _ _ r' Hs). by rewrite decide_False.
  - destruct q; [| congruence].
    destruct Hp as (Hnone & ch & Hk & Hins). split; [exact Hnone |].
    exists ch. rewrite <- Hpools. auto.
Qed.

Lemma effect_put k r q w w1 w' :
  sets_deadline r None w w1 -> sends_to_pool k (connected r) q w1 w' ->
  conn_effect k r q w w'.
Proof.
  intros Hs Hput. pose proof Hs as ((Hpools & Hnext) & _).
  pose proof (released_deadline _ _ _ _ _ _ _ _ Hs Hput) as Hnone.
  pose proof Hput as (_ & Hn & Hp). rewrite Hpools in Hp.
  split; [congruence |]. split.
  - intros r' Hr'. rewrite (sends_to_pool_conn_get _ _ _ _ _ r' Hput).
    rewrite (sets_deadline_deadline _ _ _ _ r' Hs). by rewrite decide_False.
  - destruct (idlePools w !! k) as [ch|] eqn:Ek.
    + destruct (length (queue ch) <? cap ch)%nat; destruct Hp as [-> Hp].
      * split; [exact Hnone |]. exists ch. auto.
      * exact Hp.
    + by destruct Hp as [-> Hp].
Qed.

End Effects.

(** Composes the effects of the calls of a run, from its first world on. *)
Ltac chain_effects :=
  repeat first
    [ eapply effect_put; eassumption
    | eapply effect_write; [eassumption |]
    | eapply effect_deadline; [eassumption |]
    | apply effect_refl ].

Section RunEffects.

(** What the handshake on a connection it holds leaves behind, and what
    it returns: the transaction it was given, or, with the connection
    kept, the handle on that connection. *)
Lemma handshake_effect env op t r w :
  exists released,
    conn_effect (idlePool (client t)) r released w
      (final_world (handshake env op t (connected r) w))
    /\ match handshake env op t (connected r) w with
       | Done t' w' _ =>
           t' = t
           \/ (released = false /\ conn t' = connected r
               /\ chunker t' = Some {| Wire := r |} /\ client t' = client t
               /\ deadline (conn_get w' r) = None)
       | Panicked _ _ => True
       end.
Proof.
  unfold connected.
  run_client (handshake env op t {| raw := Some r; buf := Some r |} w).
  all: try (eexists; split; [chain_effects | first [exact I | left; reflexivity]]; fail).
  exists false. split; [chain_effects |]. right.
  repeat split.
  match goal with H : sets_deadline r None _ _ |- _ =>
    rewrite (sets_deadline_deadline _ _ _ _ r H) end.
  by rewrite decide_True.
Qed.

Lemma Commit_effect env t delta r w err w' evs :
  conn t = connected r -> chunker t = Some {| Wire := r |} ->
  Commit env t delta w = Done err w' evs ->
  exists released, conn_effect (idlePool (client t)) r released w w'.
Proof.
  unfold connected. intros Hc Hcw.
  assert (Hb : buf (conn t) = Some r) by (by rewrite Hc).
  assert (Hr : raw (conn t) = Some r) by (by rewrite Hc).
  run_client (Commit env t delta w).
  all: intros [=]; subst; cbn [Wire] in *.
  all: rewrite ?Hc in *.
  all: eexists; chain_effects.
Qed.

Lemma Write_effect t p r k w res w' evs :
  Write t p w = Done res w' evs -> conn_effect k r false w w'.
Proof.
  run_client (Write t p w).
  all: intros [=]; subst.
  all: chain_effects.
Qed.

End RunEffects.

Section Invariant.

Lemma pooled_insert w pools' k ch c :
  pools' = <[k := ch]> (idlePools w) ->
  (exists k' ch', pools' !! k' = Some ch' /\ c ∈ queue ch') ->
  c ∈ queue ch \/ (exists k' ch', k' ≠ k /\ idlePools w !! k' = Some ch' /\ c ∈ queue ch').
Proof.
  intros -> (k' & ch' & Hk & Hc).
  destruct (decide (k = k')) as [<-|Hne].
  - rewrite lookup_insert_eq in Hk. injection Hk as <-. by left.
  - rewrite lookup_insert_ne in Hk by done. right. exists k', ch'. auto.
Qed.

(** The invariant follows a run that holds a connection in no pool. *)
Lemma inv_effect w w' ts ts' k r released :
  system_inv {| world := w; owned := ts |} ->
  (r < nextConn w)%nat -> ~ pooled w (connected r) ->
  conn_effect k r released w w' ->
  (forall t, t ∈ ts' -> t ∈ ts /\ (released = true -> conn t ≠ connected r)) ->
  system_inv {| world := w'; owned := ts' |}.
Proof.
  intros [Hpooled Hnodup Hapart Howned] Hr Hfree (Hnext & Hdl & Hpools) Hts.
  cbn [world owned] in *.
  assert (Hold : forall c, pooled w c ->
            exists r0, c = connected r0 /\ (r0 < nextConn w')%nat
                       /\ deadline (conn_get w' r0) = None).
  { intros c Hc. destruct (Hpooled c Hc) as (r0 & -> & Hlt & Hnone).
    exists r0. split; [reflexivity |]. split; [lia |].
    rewrite Hdl; [exact Hnone |]. intros ->. contradiction. }
  destruct released.
  - destruct Hpools as (Hnone & ch & Hk & Hins).
    assert (Hnotin : connected r ∉ queue ch)
      by (intros Hin; apply Hfree; exists k, ch; auto).
    constructor; cbn [world owned].
    + intros c Hc.
      destruct (pooled_insert w _ k _ c Hins Hc) as [Hin|(k' & ch' & _ & Hk' & Hin)].
      * cbn [queue] in Hin. apply elem_of_app in Hin as [Hin|Hin].
        -- apply Hold. exists k, ch. auto.
        -- apply list_elem_of_singleton in Hin as ->.
           exists r. split; [reflexivity |]. split; [lia | exact Hnone].
      * apply Hold. exists k', ch'. auto.
    + intros k' ch'. rewrite Hins.
      destruct (decide (k = k')) as [<-|Hne].
      * rewrite lookup_insert_eq. intros [= <-]. cbn [queue].
        apply NoDup_app. split; [by eapply Hnodup |].
        split; [| apply NoDup_singleton].
        intros x Hx Hx'. apply list_elem_of_singleton in Hx' as ->. contradiction.
      * rewrite lookup_insert_ne by done. apply Hnodup.
    + intros k1 k2 ch1 ch2 c Hne. rewrite Hins.
      destruct (decide (k = k1)) as [<-|Hne1];
        [rewrite lookup_insert_eq | rewrite lookup_insert_ne by done];
        (destruct (decide (k = k2)) as [<-|Hne2];
           [rewrite lookup_insert_eq | rewrite lookup_insert_ne by done]).
      * contradiction.
      * intros [= <-] Hk2. cbn [queue]. intros Hin Hin2.
        apply elem_of_app in Hin as [Hin|Hin].
        -- by apply (Hapart k k2 ch ch2 c Hne Hk Hk2 Hin).
        -- apply list_elem_of_singleton in Hin as ->.
           apply Hfree. exists k2, ch2. auto.
      * intros Hk1 [= <-]. cbn [queue]. intros Hin Hin2.
        apply elem_of_app in Hin2 as [Hin2|Hin2].
        -- by apply (Hapart k1 k ch1 ch c Hne Hk1 Hk Hin).
        -- apply list_elem_of_singleton in Hin2 as ->.
           apply Hfree. exists k1, ch1. auto.
      * apply Hapart. exact Hne.
    + intros t Ht. destruct (Hts t Ht) as [Hin Hother].
      destruct (Howned t Hin) as (r0 & Hc & Hcw & Hlt & Hnp).
      exists r0. split; [exact Hc |]. split; [exact Hcw |]. split; [lia |].
      intros Hp.
      destruct (pooled_insert w _ k _ (conn t) Hins Hp)
        as [Hq|(k' & ch' & _ & Hk' & Hq)].
      * cbn [queue] in Hq. apply elem_of_app in Hq as [Hq|Hq].
        -- apply Hnp. exists k, ch. auto.
        -- apply list_elem_of_singleton in Hq. by apply Hother.
      * apply Hnp. exists k', ch'. auto.
  - constructor; cbn [world owned].
    + intros c (k' & ch' & Hk' & Hin). rewrite Hpools in Hk'.
      apply Hold. exists k', ch'. auto.
    + intros k' ch'. rewrite Hpools. apply Hnodup.
    + intros k1 k2 ch1 ch2 c. rewrite Hpools. apply Hapart.
    + intros t Ht. destruct (Hts t Ht) as [Hin _].
      destruct (Howned t Hin) as (r0 & Hc & Hcw & Hlt & Hnp).
      exists r0. split; [exact Hc |]. split; [exact Hcw |]. split; [lia |].
      intros (k' & ch' & Hk' & Hq). rewrite Hpools in Hk'.
      apply Hnp. exists k', ch'. auto.
Qed.

(** Taking the oldest connection of a pool: it is one that [takeConn]
    built, it sits nowhere else, and no handle holds it. *)
Lemma inv_take w ts k n c rest :
  system_inv {| world := w; owned := ts |} ->
  idlePools w !! k = Some {| cap := n; queue := c :: rest |} ->
  exists r,
    c = connected r /\ (r < nextConn w)%nat
    /\ system_inv {| world := set_pool k {| cap := n; queue := rest |} w;
                     owned := ts |}
    /\ ~ pooled (set_pool k {| cap := n; queue := rest |} w) c
    /\ (forall t, t ∈ ts -> conn t ≠ c).
Proof.
  intros [Hpooled Hnodup Hapart Howned] Hk. cbn [world owned] in *.
  destruct (Hpooled c) as (r & -> & Hlt & Hnone).
  { exists k, {| cap := n; queue := c :: rest |}. split; [exact Hk | by left]. }
  pose proof (Hnodup _ _ Hk) as Hnd. cbn [queue] in Hnd.
  apply NoDup_cons in Hnd as [Hnotin Hnd].
  assert (Hsub : forall c', pooled (set_pool k {| cap := n; queue := rest |} w) c' ->
                   pooled w c').
  { intros c' Hc'.
    destruct (pooled_insert w _ k _ c' eq_refl Hc') as [Hin|(k' & ch' & _ & Hk' & Hin)].
    - exists k, {| cap := n; queue := connected r :: rest |}.
      split; [exact Hk | by right].
    - exists k', ch'. auto. }
  exists r. split; [reflexivity |]. split; [exact Hlt |]. split; [| split].
  - constructor; cbn [world owned].
    + intros c' Hc'. apply (Hpooled c'). by apply Hsub.
    + intros k' ch'. cbn [set_pool idlePools].
      destruct (decide (k = k')) as [<-|Hne].
      * rewrite lookup_insert_eq. by intros [= <-].
      * rewrite lookup_insert_ne by done. apply Hnodup.
    + intros k1 k2 ch1 ch2 c' Hne. cbn [set_pool idlePools].
      destruct (decide (k = k1)) as [<-|Hne1];
        [rewrite lookup_insert_eq | rewrite lookup_insert_ne by done];
        (destruct (decide (k = k2)) as [<-|Hne2];
           [rewrite lookup_insert_eq | rewrite lookup_insert_ne by done]).
      * contradiction.
      * intros [= <-] Hk2 Hin. cbn [queue] in Hin.
        apply (Hapart k k2 _ ch2 c' Hne Hk Hk2). by right.
      * intros Hk1 [= <-] Hin Hin2. cbn [queue] in Hin2.
        apply (Hapart k1 k ch1 _ c' Hne Hk1 Hk Hin). by right.
      * by apply Hapart.
    + intros t Ht. destruct (Howned t Ht) as (r0 & Hc & Hcw & Hlt0 & Hnp).
      exists r0. repeat split; auto.
  - intros Hp.
    destruct (pooled_insert w _ k _ (connected r) eq_refl Hp)
      as [Hin|(k' & ch' & Hne & Hk' & Hin)].
    + contradiction.
    + apply (Hapart k k' _ ch' (connected r) ltac:(congruence) Hk Hk'); [by left | exact Hin].
  - intros t Ht Hc. destruct (Howned t Ht) as (_ & _ & _ & _ & Hnp).
    apply Hnp. rewrite Hc.
    exists k, {| cap := n; queue := connected r :: rest |}. split; [exact Hk | by left].
Qed.

(** A connection that has just been dialled is new to the system. *)
Lemma inv_dial env host w w' ts :
  system_inv {| world := w; owned := ts |} ->
  dials env host (Ok (nextConn w)) w w' ->
  system_inv {| world := w'; owned := ts |}
  /\ (nextConn w < nextConn w')%nat
  /\ ~ pooled w' (connected (nextConn w))
  /\ (forall t, t ∈ ts -> conn t ≠ connected (nextConn w)).
Proof.
  intros [Hpooled Hnodup Hapart Howned] (Hpools & _ & _ & Hnext & _ & Hother).
  cbn [world owned] in *. split; [| split; [lia | split]].
  - constructor; cbn [world owned].
    + intros c (k' & ch' & Hk' & Hin). rewrite Hpools in Hk'.
      destruct (Hpooled c) as (r0 & -> & Hlt & Hnone); [by exists k', ch' |].
      exists r0. split; [reflexivity |]. split; [lia |].
      rewrite Hother by lia. exact Hnone.
    + intros k' ch'. rewrite Hpools. apply Hnodup.
    + intros k1 k2 ch1 ch2 c. rewrite Hpools. apply Hapart.
    + intros t Ht. destruct (Howned t Ht) as (r0 & Hc & Hcw & Hlt0 & Hnp).
      exists r0. split; [exact Hc |]. split; [exact Hcw |]. split; [lia |].
      intros (k' & ch' & Hk' & Hq). rewrite Hpools in Hk'.
      apply Hnp. exists k', ch'. auto.
  - intros (k' & ch' & Hk' & Hin). rewrite Hpools in Hk'.
    destruct (Hpooled (connected (nextConn w))) as (r0 & Heq & Hlt & _);
      [by exists k', ch' |].
    injection Heq as Heq. lia.
  - intros t Ht Hc. destruct (Howned t Ht) as (r0 & Hc0 & _ & Hlt0 & _).
    rewrite Hc in Hc0. injection Hc0 as Heq. lia.
Qed.

(** A delivered handle joins the live ones. *)
Lemma inv_own w ts t r :
  system_inv {| world := w; owned := ts |} ->
  conn t = connected r -> chunker t = Some {| Wire := r |} ->
  (r < nextConn w)%nat -> ~ pooled w (connected r) ->
  system_inv {| world := w; owned := t :: ts |}.
Proof.
  intros [Hpooled Hnodup Hapart Howned] Hc Hcw Hlt Hfree. cbn [world owned] in *.
  constructor; cbn [world owned]; auto.
  intros t' Ht'. apply elem_of_cons in Ht' as [->|Ht']; [| by apply Howned].
  exists r. rewrite Hc. auto.
Qed.

End Invariant.

Section Reachable.

Lemma init_inv : system_inv {| world := init; owned := [] |}.
Proof.
  constructor; unfold pooled, init; cbn [world owned idlePools].
  - intros c (k & ch & Hk & _). by rewrite lookup_empty in Hk.
  - intros k ch Hk. by rewrite lookup_empty in Hk.
  - intros k1 k2 ch1 ch2 c _ Hk. by rewrite lookup_empty in Hk.
  - intros t Ht. by apply elem_of_nil in Ht.
Qed.

Lemma NewReplicateClient_inv ep w ts c w' evs :
  system_inv {| world := w; owned := ts |} ->
  NewReplicateClient ep w = Done c w' evs ->
  system_inv {| world := w'; owned := ts |}.
Proof.
  intros Hinv. unfold NewReplicateClient.
  destruct (idlePools w !! BaseURL ep) eqn:E; intros [= <- <- <-]; [exact Hinv |].
  destruct Hinv as [Hpooled Hnodup Hapart Howned]. cbn [world owned] in *.
  assert (Hsub : forall x,
            pooled (set_pool (BaseURL ep)
                      {| cap := ReplicateClientIdlePoolSize; queue := [] |} w) x ->
            pooled w x).
  { intros x Hx.
    destruct (pooled_insert w _ _ _ x eq_refl Hx) as [Hin|(k' & ch' & _ & Hk' & Hin)].
    - by apply elem_of_nil in Hin.
    - exists k', ch'. auto. }
  constructor; cbn [world owned].
  - intros x Hx. apply (Hpooled x). by apply Hsub.
  - intros k ch. cbn [set_pool idlePools].
    destruct (decide (BaseURL ep = k)) as [<-|Hne].
    + rewrite lookup_insert_eq. intros [= <-]. constructor.
    + rewrite lookup_insert_ne by done. apply Hnodup.
  - intros k1 k2 ch1 ch2 x Hne. cbn [set_pool idlePools].
    destruct (decide (BaseURL ep = k1)) as [<-|Hne1];
      [rewrite lookup_insert_eq | rewrite lookup_insert_ne by done];
      (destruct (decide (BaseURL ep = k2)) as [<-|Hne2];
         [rewrite lookup_insert_eq | rewrite lookup_insert_ne by done]).
    + contradiction.
    + intros [= <-] _ Hin. by apply elem_of_nil in Hin.
    + intros _ [= <-] _ Hin. by apply elem_of_nil in Hin.
    + by apply Hapart.
  - intros t Ht. destruct (Howned t Ht) as (r0 & Hc & Hcw & Hlt0 & Hnp).
    exists r0. repeat split; auto.
Qed.

(** The handshake on a connection that is in no pool and that no handle
    holds keeps the invariant, the delivered handle joining the live
    ones. *)
Lemma handshake_inv env op t r w ts t' w' evs :
  system_inv {| world := w; owned := ts |} ->
  chunker t = None ->
  (r < nextConn w)%nat -> ~ pooled w (connected r) ->
  (forall t0, t0 ∈ ts -> conn t0 ≠ connected r) ->
  handshake env op t (connected r) w = Done t' w' evs ->
  system_inv {| world := w';
                owned := match chunker t' with
                         | Some _ => t' :: ts
                         | None => ts
                         end |}.
Proof.
  intros Hinv Hnone Hlt Hfree Hts E.
  destruct (handshake_effect env op t r w) as (released & Heff & Hres).
  rewrite E in Heff, Hres. cbn [final_world] in Heff.
  assert (Hinv' : system_inv {| world := w'; owned := ts |}).
  { eapply inv_effect; eauto. }
  destruct Hres as [->|(-> & Hc & Hcw & _ & _)].
  - by rewrite Hnone.
  - rewrite Hcw. destruct Heff as (Hnext & _ & Hpools).
    eapply inv_own; eauto; [lia |].
    intros (k' & ch' & Hk' & Hin). rewrite Hpools in Hk'.
    apply Hfree. exists k', ch'. auto.
Qed.

Lemma step_inv s s' : system_inv s -> step s s' -> system_inv s'.
Proof.
  intros Hinv Hstep. destruct Hstep as
    [s ep c w' evs E | s env ep op t' w' evs _ E
    | s t p res w' evs Ht E | s env t delta err w' evs Ht E];
    destruct s as [w ts]; cbn [world owned] in *.
  - eapply NewReplicateClient_inv; eauto.
  - revert E. unfold Replicate, start.
    set (t := {| client := {| endpoint := ep; idlePool := BaseURL ep |};
                 chunker := None; conn := zeroConn; request := None |}).
    unfold mbind, M_bind.
    destruct (takeConn_cases env t w)
      as [(n & c & rest & Hin & ->)
         |(_ & [(e & _ & ->)|[(u & e & _ & _ & ->)|(u & w1 & _ & _ & -> & Hd)]])].
    + destruct (inv_take w ts _ n c rest Hinv Hin)
        as (r & -> & Hlt & Hinv1 & Hfree & Hts).
      destruct (handshake env op t (connected r) _) as [t1 w1 evs1|] eqn:E1;
        cbn [after]; intros [= <- <- <-].
      eapply handshake_inv; eauto; reflexivity.
    + intros [= <- <- <-]. exact Hinv.
    + intros [= <- <- <-]. exact Hinv.
    + destruct (inv_dial _ _ _ _ _ Hinv Hd) as (Hinv1 & Hlt & Hfree & Hts).
      change {| raw := Some (nextConn w); buf := Some (nextConn w) |}
        with (connected (nextConn w)).
      destruct (handshake env op t (connected (nextConn w)) w1)
        as [t1 w2 evs1|] eqn:E1; cbn [after]; intros [= <- <- <-].
      eapply handshake_inv; eauto; reflexivity.
  - pose proof Hinv as [_ _ _ Howned]. cbn [world owned] in Howned.
    destruct (Howned t Ht) as (r & Hc & _ & Hlt & Hfree). rewrite Hc in Hfree.
    eapply (inv_effect w w' ts ts (idlePool (client t)) r false); eauto.
    eapply Write_effect; eauto.
  - pose proof Hinv as [_ _ _ Howned]. cbn [world owned] in Howned.
    destruct (Howned t Ht) as (r & Hc & Hcw & Hlt & Hfree).
    destruct (Commit_effect _ _ _ _ _ _ _ _ Hc Hcw E) as (released & Heff).
    rewrite Hc in Hfree.
    eapply (inv_effect w w' ts (disown t ts)); eauto.
    intros t2 Ht2. unfold disown in Ht2.
    apply list_elem_of_filter in Ht2 as [Hneq Hin2]. split; [exact Hin2 |].
    intros _ Hc2. unfold same_conn in Hneq.
    apply bool_decide_eq_false in Hneq. apply Hneq. by rewrite Hc, Hc2.
Qed.

Lemma reachable_inv s : reachable s -> system_inv s.
Proof.
  induction 1 as [|s s' _ IH Hstep]; [exact init_inv | by eapply step_inv].
Qed.



End Reachable.

(** * Further properties of the client *)

(** ** The registry of pools and the order of a pool *)

Section Registry.

(** One release, seen from the pool it goes to. *)
Lemma putConn_queue t c r w ch :
  raw c = Some r ->
  idlePools w !! idlePool (client t) = Some ch ->
  exists w',
    putConn t c w
      = Done tt w' [EvSetReadDeadline r None;
                    EvPoolPut c (length (queue ch) <? cap ch)%nat]
    /\ idlePools w' !! idlePool (client t)
       = Some {| cap := cap ch;
                 queue := if (length (queue ch) <? cap ch)%nat
                          then queue ch ++ [c] else queue ch |}
    /\ (forall k', k' ≠ idlePool (client t) ->
          idlePools w' !! k' = idlePools w !! k')
    /\ nextConn w' = nextConn w
    /\ conn_get w' r = with_deadline None (conn_get w r)
    /\ (forall r', r' ≠ r -> conn_get w' r' = conn_get w r').
Proof.
  intros Hr Hk.
  destruct (putConn_spec t c r w Hr) as (q & w1 & w' & E & Hdl & Hput).
  pose proof Hdl as ((Hpools & Hnext) & Hother & Hself).
  pose proof Hput as (_ & Hnext' & Hp). rewrite Hpools, Hk in Hp.
  assert (Hget : forall x, conn_get w' x = conn_get w1 x)
    by (intros x; apply (sends_to_pool_conn_get _ _ _ _ _ x Hput)).
  exists w'. destruct (length (queue ch) <? cap ch)%nat; destruct Hp as [-> Hp].
  - split; [exact E |]. rewrite Hp. split; [by rewrite lookup_insert_eq |].
    split; [intros k' Hne; by rewrite lookup_insert_ne |].
    split; [congruence |]. split; [by rewrite Hget |].
    intros r' Hne. rewrite Hget. by apply Hother.
  - split; [exact E |]. rewrite Hp. split; [rewrite Hk; by destruct ch |].
    split; [auto |]. split; [congruence |]. split; [by rewrite Hget |].
    intros r' Hne. rewrite Hget. by apply Hother.
Qed.

(** X1: a pool is a queue. A connection released to a pool with room goes
    to its end; the next [takeConn] on that pool, through whichever
    transaction names it, returns the oldest connection without resolving
    or dialling, and leaves the others in order. Released to an empty
    pool, the connection is the one that comes back, with no deadline. *)
Theorem pool_is_fifo t1 t2 env c r w ch :
  idlePool (client t1) = idlePool (client t2) ->
  raw c = Some r ->
  idlePools w !! idlePool (client t1) = Some ch ->
  (length (queue ch) < cap ch)%nat ->
  exists w1 w2 c0,
    putConn t1 c w = Done tt w1 [EvSetReadDeadline r None; EvPoolPut c true]
    /\ takeConn env t2 w1 = Done (c0, None) w2 [EvPoolTake c0]
    /\ head (queue ch ++ [c]) = Some c0
    /\ pool_queue w2 (idlePool (client t1)) = tail (queue ch ++ [c])
    /\ deadline (conn_get w2 r) = None.
Proof.
  intros Hk Hr Hch Hroom.
  destruct (putConn_queue t1 c r w ch Hr Hch) as (w1 & E1 & Hq & _ & _ & Hself & _).
  destruct (Nat.ltb_spec (length (queue ch)) (cap ch)) as [_|Hge]; [| lia].
  destruct (takeConn_cases env t2 w1)
    as [(n & c0 & rest & Hin & E2)|(Hempty & _)].
  - rewrite <- Hk, Hq in Hin. injection Hin as <- Hqueue.
    exists w1, (set_pool (idlePool (client t2))
                  {| cap := cap ch; queue := rest |} w1), c0.
    split; [exact E1 |]. split; [exact E2 |]. rewrite Hqueue.
    split; [reflexivity |]. split.
    + rewrite Hk. unfold pool_queue, set_pool. cbn [idlePools].
      by rewrite lookup_insert_eq.
    + change (conn_get (set_pool (idlePool (client t2))
                          {| cap := cap ch; queue := rest |} w1) r)
        with (conn_get w1 r).
      by rewrite Hself.
  - unfold pool_queue in Hempty. rewrite <- Hk, Hq in Hempty. cbn [queue] in Hempty.
    by destruct (queue ch).
Qed.

Lemma pool_is_fifo_witness :
  exists w1 w2,
    putConn Sample.txn0 (Sample.conn_n 3) Sample.world0
      = Done tt w1 [EvSetReadDeadline 3%nat None; EvPoolPut (Sample.conn_n 3) true]
    /\ takeConn Sample.env_unresolved Sample.txn0 w1
       = Done (Sample.conn_n 3, None) w2 [EvPoolTake (Sample.conn_n 3)].
Proof.
  destruct (pool_is_fifo Sample.txn0 Sample.txn0 Sample.env_unresolved
              (Sample.conn_n 3) 3%nat Sample.world0
              {| cap := ReplicateClientIdlePoolSize; queue := [] |}
              eq_refl eq_refl ltac:(vm_compute; reflexivity)
              ltac:(vm_compute; lia))
    as (w1 & w2 & c0 & E1 & E2 & Hhead & _).
  cbn in Hhead. injection Hhead as <-. exists w1, w2. auto.
Defined.

(** X2: releases fill a pool in the order they come and up to its
    capacity: the queue after a run of releases is the first [cap]
    connections of the old queue followed by the released ones; what
    does not fit is dropped, whenever it comes. *)
Theorem putConns_fill_in_order t cs w ch :
  idlePools w !! idlePool (client t) = Some ch ->
  (length (queue ch) <= cap ch)%nat ->
  Forall (fun c => is_Some (raw c)) cs ->
  exists w' evs,
    putConns t cs w = Done tt w' evs
    /\ idlePools w' !! idlePool (client t)
       = Some {| cap := cap ch; queue := take (cap ch) (queue ch ++ cs) |}.
Proof.
  intros Hk Hlen Hcs. revert w ch Hk Hlen.
  induction Hcs as [|c cs [r Hr] _ IH]; intros w ch Hk Hlen.
  - exists w, []. split; [reflexivity |].
    rewrite app_nil_r, take_ge by lia. rewrite Hk. by destruct ch.
  - destruct (putConn_queue t c r w ch Hr Hk) as (w1 & E1 & Hq & _).
    destruct (Nat.ltb_spec (length (queue ch)) (cap ch)) as [Hlt|Hge].
    + destruct (IH w1 _ Hq) as (w' & evs & E & Hq').
      { cbn [queue cap]. rewrite length_app. cbn [length]. lia. }
      cbn [cap queue] in Hq'.
      eexists w', _. split.
      * cbn [putConns]. unfold mbind, M_bind. rewrite E1, E. reflexivity.
      * rewrite Hq'. by rewrite <- app_assoc.
    + destruct (IH w1 _ Hq) as (w' & evs & E & Hq'); [cbn [queue cap]; lia |].
      cbn [cap queue] in Hq'.
      eexists w', _. split.
      * cbn [putConns]. unfold mbind, M_bind. rewrite E1, E. reflexivity.
      * rewrite Hq'. do 2 f_equal.
        rewrite !take_app_le by lia. reflexivity.
Qed.

Lemma putConns_fill_in_order_witness :
  exists w' evs,
    putConns Sample.txn0 (map Sample.conn_n (seq 0 8)) Sample.world0
      = Done tt w' evs
    /\ idlePools w' !! "http://peer:8080"
       = Some {| cap := 6; queue := map Sample.conn_n (seq 0 6) |}.
Proof.
  destruct (putConns_fill_in_order Sample.txn0 (map Sample.conn_n (seq 0 8))
              Sample.world0 {| cap := ReplicateClientIdlePoolSize; queue := [] |})
    as (w' & evs & E & Hq).
  - vm_compute. reflexivity.
  - cbn. lia.
  - repeat constructor; eexists; reflexivity.
  - exists w', evs. split; [exact E | exact Hq].
Defined.

(** What [NewReplicateClient] does to the registry. *)
Lemma NewReplicateClient_registry ep w :
  exists w',
    NewReplicateClient ep w
      = Done {| endpoint := ep; idlePool := BaseURL ep |} w' []
    /\ conns w' = conns w /\ nextConn w' = nextConn w
    /\ (forall k, k ≠ BaseURL ep -> idlePools w' !! k = idlePools w !! k)
    /\ idlePools w' !! BaseURL ep
       = Some (default {| cap := ReplicateClientIdlePoolSize; queue := [] |}
                 (idlePools w !! BaseURL ep)).
Proof.
  unfold NewReplicateClient. destruct (idlePools w !! BaseURL ep) as [ch|] eqn:E.
  - exists w. rewrite E. auto.
  - eexists. split; [reflexivity |]. cbn [set_pool conns nextConn idlePools].
    split; [reflexivity |]. split; [reflexivity |].
    split; [intros k Hk; by rewrite lookup_insert_ne | by rewrite lookup_insert_eq].
Qed.

(** X3: clients made for endpoints with the same base URL share one pool.
    The second [NewReplicateClient] changes nothing, and a connection
    that a transaction of the one client releases is the connection that
    a transaction of the other takes. *)
Theorem clients_share_pool ep1 ep2 env c r w :
  BaseURL ep1 = BaseURL ep2 ->
  pools_bounded w -> pool_queue w (BaseURL ep1) = [] -> raw c = Some r ->
  exists c1 c2 w1 w2 w3,
    NewReplicateClient ep1 w = Done c1 w1 []
    /\ NewReplicateClient ep2 w1 = Done c2 w1 []
    /\ idlePool c1 = idlePool c2
    /\ putConn (transaction_of c1) c w1
       = Done tt w2 [EvSetReadDeadline r None; EvPoolPut c true]
    /\ takeConn env (transaction_of c2) w2 = Done (c, None) w3 [EvPoolTake c].
Proof.
  intros Hurl Hbound Hempty Hr.
  destruct (NewReplicateClient_registry ep1 w) as (w1 & E1 & _ & _ & _ & Hk1).
  assert (Hch : exists ch, idlePools w1 !! BaseURL ep1 = Some ch
                           /\ queue ch = [] /\ cap ch = ReplicateClientIdlePoolSize).
  { rewrite Hk1. unfold pool_queue in Hempty.
    destruct (idlePools w !! BaseURL ep1) as [ch|] eqn:E; cbn [default].
    - exists ch. destruct (Hbound _ _ E). auto.
    - eexists. auto. }
  destruct Hch as (ch & Hch & Hq & Hcap).
  assert (E2 : NewReplicateClient ep2 w1
               = Done {| endpoint := ep2; idlePool := BaseURL ep2 |} w1 []).
  { unfold NewReplicateClient. rewrite <- Hurl, Hch. reflexivity. }
  set (t1 := transaction_of {| endpoint := ep1; idlePool := BaseURL ep1 |}).
  set (t2 := transaction_of {| endpoint := ep2; idlePool := BaseURL ep2 |}).
  destruct (putConn_queue t1 c r w1 ch Hr Hch) as (w2 & Eput & Hput & _).
  rewrite Hq, Hcap in Eput, Hput. cbn in Eput, Hput.
  assert (Etake : exists w3, takeConn env t2 w2 = Done (c, None) w3 [EvPoolTake c]).
  { destruct (takeConn_cases env t2 w2)
      as [(n & c0 & rest & Hin & E)|(Hnone & _)].
    - cbn in Hin. rewrite <- Hurl, Hput in Hin. injection Hin as <- <- <-.
      eexists. exact E.
    - unfold pool_queue in Hnone. cbn in Hnone. rewrite <- Hurl, Hput in Hnone.
      discriminate. }
  destruct Etake as (w3 & Etake).
  exists {| endpoint := ep1; idlePool := BaseURL ep1 |},
         {| endpoint := ep2; idlePool := BaseURL ep2 |}, w1, w2, w3.
  split; [exact E1 |]. split; [exact E2 |]. split; [exact Hurl |].
  split; [exact Eput | exact Etake].
Qed.

Lemma clients_share_pool_witness :
  exists w2 w3,
    putConn (transaction_of Sample.client0) (Sample.conn_n 4) Sample.world0
      = Done tt w2 [EvSetReadDeadline 4%nat None; EvPoolPut (Sample.conn_n 4) true]
    /\ takeConn Sample.env_refused (transaction_of Sample.client0) w2
       = Done (Sample.conn_n 4, None) w3 [EvPoolTake (Sample.conn_n 4)].
Proof.
  destruct (clients_share_pool Sample.ep Sample.ep Sample.env_refused
              (Sample.conn_n 4) 4%nat init eq_refl init_pools_bounded
              ltac:(vm_compute; reflexivity) eq_refl)
    as (c1 & c2 & w1 & w2 & w3 & E1 & E2 & _ & Eput & Etake).
  injection E1 as <- <-. injection E2 as <-.
  exists w2, w3. split; [exact Eput | exact Etake].
Defined.

End Registry.

(** ** What a run does to the pools *)

Section PoolMoves.

Lemma moves_refl k w : pool_moves k w w.
Proof.
  split; [reflexivity |]. destruct (idlePools w !! k); [| exact I].
  split; [reflexivity | lia].
Qed.

Lemma moves_pools k w w1 w2 :
  idlePools w1 = idlePools w -> pool_moves k w1 w2 -> pool_moves k w w2.
Proof. unfold pool_moves. by intros ->. Qed.

Lemma moves_write k b w w1 w2 :
  writes_to b w w1 -> pool_moves k w1 w2 -> pool_moves k w w2.
Proof. intros H. apply moves_pools. by apply (writes_to_pools b). Qed.

Lemma moves_deadline k r d w w1 w2 :
  sets_deadline r d w w1 -> pool_moves k w1 w2 -> pool_moves k w w2.
Proof. intros H. apply moves_pools. by apply (sets_deadline_pools r d). Qed.

Lemma moves_dial k env host d w w1 w2 :
  dials env host d w w1 -> pool_moves k w1 w2 -> pool_moves k w w2.
Proof. intros [H _]. by apply moves_pools. Qed.

Lemma moves_send k c q w w' : sends_to_pool k c q w w' -> pool_moves k w w'.
Proof.
  intros (_ & _ & H). unfold pool_moves.
  destruct (idlePools w !! k) as [ch|] eqn:E.
  - destruct (Nat.ltb_spec (length (queue ch)) (cap ch)) as [Hlt|Hge];
      destruct H as [_ ->].
    + split; [intros k' Hk'; by rewrite lookup_insert_ne |].
      rewrite lookup_insert_eq. cbn [cap queue]. split; [reflexivity |].
      rewrite length_app. cbn [length]. lia.
    + split; [reflexivity |]. rewrite E. split; [reflexivity | lia].
  - destruct H as [_ ->]. split; [reflexivity |]. by rewrite E.
Qed.

Lemma moves_take k n c rest w w2 :
  idlePools w !! k = Some {| cap := n; queue := c :: rest |} ->
  pool_moves k (set_pool k {| cap := n; queue := rest |} w) w2 ->
  pool_moves k w w2.
Proof.
  intros Hk [Hother Hself]. unfold set_pool in *. cbn [idlePools] in *.
  rewrite lookup_insert_eq in Hself. split.
  - intros k' Hk'. rewrite Hother by done. by rewrite lookup_insert_ne.
  - rewrite Hk. destruct (idlePools w2 !! k) as [ch'|]; [| exact Hself].
    cbn [cap queue length] in *. lia.
Qed.

Lemma moves_bounded k w w' :
  pool_moves k w w' -> pools_bounded w -> pools_bounded w'.
Proof.
  intros [Hother Hself] Hw k' ch' Hk'.
  destruct (decide (k' = k)) as [->|Hne].
  - rewrite Hk' in Hself. destruct (idlePools w !! k) as [ch|] eqn:E; [| done].
    destruct (Hw _ _ E) as [Hcap Hlen]. destruct Hself as [Hcap' Hlen'].
    split; [congruence |]. rewrite Hcap in Hlen'. lia.
  - rewrite Hother in Hk' by done. by eapply Hw.
Qed.

End PoolMoves.

(** Composes what the calls of a run do to the pool of its client. *)
Ltac chain_moves :=
  repeat first
    [ apply moves_refl
    | eapply moves_send; eassumption
    | eapply moves_take; [eassumption |]
    | eapply moves_write; [eassumption |]
    | eapply moves_deadline; [eassumption |]
    | eapply moves_dial; [eassumption |] ].

Section PoolLocality.

Lemma start_moves env op t w :
  pool_moves (idlePool (client t)) w (final_world (start env op t w)).
Proof. run_client (start env op t w). all: chain_moves. Qed.

Lemma Commit_moves env t delta w :
  pool_moves (idlePool (client t)) w (final_world (Commit env t delta w)).
Proof. run_client (Commit env t delta w). all: chain_moves. Qed.

Lemma Write_pools t p w : idlePools (final_world (Write t p w)) = idlePools w.
Proof.
  run_client (Write t p w).
  all: repeat match goal with
         | H : writes_to _ _ _ |- _ => apply writes_to_pools in H
         end; congruence.
Qed.

(** X4: a run of [start] or of [Commit], however it ends, changes no pool
    but the one of its client; it neither makes nor removes that pool,
    keeps its capacity, and does not grow its queue past the capacity.
    [Write] changes no pool at all. *)
Theorem runs_keep_to_their_pool :
  (forall env op t w,
     pool_moves (idlePool (client t)) w (final_world (start env op t w)))
  /\ (forall env t delta w,
        pool_moves (idlePool (client t)) w (final_world (Commit env t delta w)))
  /\ (forall t p w, idlePools (final_world (Write t p w)) = idlePools w).
Proof.
  split; [exact start_moves |]. split; [exact Commit_moves | exact Write_pools].
Qed.

Lemma reachable_bounded s : reachable s -> pools_bounded (world s).
Proof.
  induction 1 as [|s s' _ IH Hstep]; [exact init_pools_bounded |].
  destruct Hstep as
    [s ep c w' evs E | s env ep op t' w' evs _ E
    | s t p res w' evs Ht E | s env t delta err w' evs Ht E];
    cbn [world].
  - pose proof (NewReplicateClient_pools_bounded ep (world s) IH) as H.
    by rewrite E in H.
  - pose proof (start_moves env op
                  (transaction_of {| endpoint := ep; idlePool := BaseURL ep |})
                  (world s)) as H.
    unfold Replicate in E. unfold transaction_of in H. rewrite E in H.
    by eapply moves_bounded.
  - pose proof (Write_pools t p (world s)) as H. rewrite E in H.
    cbn [final_world] in H. intros k ch. rewrite H. apply IH.
  - pose proof (Commit_moves env t delta (world s)) as H. rewrite E in H.
    by eapply moves_bounded.
Qed.

(** X5: in every system the client can reach, every pool of the registry
    has the capacity of the package and holds no more connections than
    that, whatever the peers answered on the way. *)
Theorem reachable_pools_bounded s :
  reachable s ->
  pools_bounded (world s)
  /\ forall k, (length (pool_queue (world s) k) <= ReplicateClientIdlePoolSize)%nat.
Proof.
  intros Hreach. pose proof (reachable_bounded s Hreach) as Hb.
  split; [exact Hb |]. intros k. unfold pool_queue.
  destruct (idlePools (world s) !! k) as [ch|] eqn:E; [| cbn; lia].
  by destruct (Hb _ _ E).
Qed.

End PoolLocality.

(** A system the client reaches against a peer that refuses the
    replication: the client is made, and one transaction is run. *)
Lemma reachable_after_refusal :
  reachable
    {| world := final_world
                  (Replicate (Sample.env (Ok Sample.refusal)) Sample.client0
                     Sample.op Sample.world0);
       owned := [] |}.
Proof.
  set (o := Replicate (Sample.env (Ok Sample.refusal)) Sample.client0 Sample.op
              Sample.world0).
  assert (E : exists t' evs, o = Done t' (final_world o) evs /\ chunker t' = None).
  { vm_compute. eauto. }
  destruct E as (t' & evs & E & Hnone).
  eapply reachable_step.
  - eapply reachable_step; [apply reachable_init |].
    eapply (step_NewReplicateClient _ Sample.ep). reflexivity.
  - pose proof (step_Replicate
                  {| world := Sample.world0; owned := [] |}
                  (Sample.env (Ok Sample.refusal)) Sample.ep Sample.op
                  t' (final_world o) evs) as Hstep.
    cbn [world owned] in Hstep. rewrite Hnone in Hstep. apply Hstep.
    + vm_compute. eauto.
    + exact E.
Qed.

Lemma reachable_pools_bounded_witness :
  (length
     (pool_queue
        (final_world
           (Replicate (Sample.env (Ok Sample.refusal)) Sample.client0
              Sample.op Sample.world0))
        "http://peer:8080") <= ReplicateClientIdlePoolSize)%nat.
Proof.
  exact (proj2 (reachable_pools_bounded _ reachable_after_refusal)
           "http://peer:8080").
Defined.

(** ** Where a connection is *)

Section Keeps.

Lemma keeps_refl r w : keeps_others r w w.
Proof. by intros r' _. Qed.

Lemma keeps_write r w w1 w2 :
  writes_to r w w1 -> keeps_others r w1 w2 -> keeps_others r w w2.
Proof. intros (_ & Ho & _) H r' Hr'. rewrite H by done. by apply Ho. Qed.

Lemma keeps_deadline r d w w1 w2 :
  sets_deadline r d w w1 -> keeps_others r w1 w2 -> keeps_others r w w2.
Proof. intros (_ & Ho & _) H r' Hr'. rewrite H by done. by apply Ho. Qed.

Lemma keeps_send r k c q w w1 w2 :
  sends_to_pool k c q w w1 -> keeps_others r w1 w2 -> keeps_others r w w2.
Proof.
  intros Hs H r' Hr'. rewrite H by done.
  apply (sends_to_pool_conn_get _ _ _ _ _ r' Hs).
Qed.

End Keeps.

Ltac chain_keeps :=
  repeat first
    [ apply keeps_refl
    | eapply keeps_write; [eassumption |]
    | eapply keeps_deadline; [eassumption |]
    | eapply keeps_send; [eassumption |] ].

(** The writer of a connection that has just been released: the flush
    before the release went through, and nothing was written since. *)
Ltac released_flushed :=
  intros _; unfold flushed;
  repeat match goal with
    | H : sends_to_pool _ _ _ _ ?w |- context [conn_get ?w ?c] =>
        rewrite (sends_to_pool_conn_get _ _ _ _ _ c H)
    | H : sets_deadline ?r _ _ ?w |- context [conn_get ?w ?r] =>
        let H' := fresh in
        pose proof H as (_ & _ & H'); rewrite H'; clear H';
        cbn [with_deadline pending werr]
    end;
  match goal with
  | H : ?e = None -> werr (conn_get ?w ?r) = None /\ _
    |- pending (conn_get ?w ?r) = "" /\ _ =>
      let He := fresh in
      assert (He : e = None)
        by (first
              [ reflexivity
              | destruct e;
                [ exfalso; cbn [is_nil] in *; rewrite ?andb_false_r in *;
                  discriminate
                | reflexivity ] ]);
      destruct (H He); auto
  end.

Section Flushed.

Lemma handshake_flushes env op t r w :
  exists released,
    conn_effect (idlePool (client t)) r released w
      (final_world (handshake env op t (connected r) w))
    /\ keeps_others r w (final_world (handshake env op t (connected r) w))
    /\ (released = true ->
        flushed (final_world (handshake env op t (connected r) w)) r).
Proof.
  unfold connected.
  run_client (handshake env op t {| raw := Some r; buf := Some r |} w).
  all: eexists; split; [chain_effects | split; [chain_keeps |]].
  all: first [discriminate | released_flushed].
Qed.

Lemma Commit_flushes env t delta r w :
  conn t = connected r -> chunker t = Some {| Wire := r |} ->
  exists released,
    conn_effect (idlePool (client t)) r released w
      (final_world (Commit env t delta w))
    /\ keeps_others r w (final_world (Commit env t delta w))
    /\ (released = true -> flushed (final_world (Commit env t delta w)) r).
Proof.
  unfold connected. intros Hc Hcw.
  assert (Hb : buf (conn t) = Some r) by (by rewrite Hc).
  assert (Hr : raw (conn t) = Some r) by (by rewrite Hc).
  run_client (Commit env t delta w).
  all: cbn [Wire] in *; rewrite ?Hc in *.
  all: eexists; split; [chain_effects | split; [chain_keeps |]].
  all: first [discriminate | released_flushed].
Qed.

Lemma Write_keeps t p r w :
  chunker t = Some {| Wire := r |} ->
  keeps_others r w (final_world (Write t p w)).
Proof.
  intros Hcw. run_client (Write t p w).
  all: cbn [Wire] in *; chain_keeps.
Qed.







End Flushed.

Section Exclusive.





End Exclusive.

(** A system with a live handle: the client is made, and one
    transaction is opened against a peer that answers 100. *)
Lemma reachable_open :
  reachable {| world := Sample.world_open; owned := [Sample.handle] |}.
Proof.
  assert (E : exists evs,
             Replicate (Sample.env (Ok Sample.continue)) Sample.client0 Sample.op
               Sample.world0
             = Done Sample.handle Sample.world_open evs).
  { vm_compute. eauto. }
  destruct E as (evs & E).
  eapply reachable_step.
  - eapply reachable_step; [apply reachable_init |].
    eapply (step_NewReplicateClient _ Sample.ep). reflexivity.
  - pose proof (step_Replicate
                  {| world := Sample.world0; owned := [] |}
                  (Sample.env (Ok Sample.continue)) Sample.ep Sample.op
                  Sample.handle Sample.world_open evs) as Hstep.
    cbn [world owned] in Hstep. apply Hstep.
    + vm_compute. eauto.
    + exact E.
Qed.


(** ** What goes to the peer *)

Section Text.

Lemma string_app_nil_r (s : string) : s ++ "" = s.
Proof.
  induction s as [|c s IH]; [reflexivity |].
  change (String c (s ++ "") = String c s). by rewrite IH.
Qed.

Lemma writes_to_refl b w : writes_to b w w.
Proof. repeat split. Qed.

Lemma writes_to_trans b w w1 w2 :
  writes_to b w w1 -> writes_to b w1 w2 -> writes_to b w w2.
Proof.
  intros ((Hp1 & Hn1) & Ho1 & Hd1) ((Hp2 & Hn2) & Ho2 & Hd2).
  split; [split; congruence |]. split; [| congruence].
  intros c Hc. rewrite Ho2 by done. by apply Ho1.
Qed.

Lemma bufio_Write_healthy b s w :
  werr (conn_get w b) = None ->
  exists w',
    bufio.Write b s w = Done (len s, None) w' [EvBufWrite b s]
    /\ writes_to b w w'
    /\ werr (conn_get w' b) = None
    /\ pending (conn_get w' b) = pending (conn_get w b) ++ s
    /\ wire (conn_get w' b) = wire (conn_get w b).
Proof.
  intros Hw. destruct (bufio_Write_spec b s w) as (res & w' & E & Hwr & H).
  rewrite Hw in H. destruct H as (-> & ? & ? & ?). exists w'. auto.
Qed.

(** A flush of a healthy writer over a transport that takes the text:
    the buffer goes to the peer. *)
Lemma bufio_Flush_sends b w :
  werr (conn_get w b) = None ->
  exists w',
    bufio.Flush None b w = Done None w' [EvFlush b true]
    /\ writes_to b w w'
    /\ werr (conn_get w' b) = None
    /\ pending (conn_get w' b) = ""
    /\ wire (conn_get w' b) = wire (conn_get w b) ++ pending (conn_get w b).
Proof.
  intros Hw. unfold bufio.Flush. cbv zeta. rewrite Hw.
  destruct (String.eqb_spec (pending (conn_get w b)) "") as [Hp|Hp].
  - exists w. split; [reflexivity |]. split; [apply writes_to_refl |].
    rewrite Hp, string_app_nil_r. auto.
  - eexists. split; [reflexivity |]. unfold writes_to, same_pools.
    rewrite conn_get_set_conn_eq. cbn.
    split; [| auto]. split; [by split |]. split; [| reflexivity].
    intros c Hc. by rewrite conn_get_set_conn_ne.
Qed.

Lemma sets_deadline_text r d w w' c :
  sets_deadline r d w w' ->
  pending (conn_get w' c) = pending (conn_get w c)
  /\ wire (conn_get w' c) = wire (conn_get w c)
  /\ werr (conn_get w' c) = werr (conn_get w c).
Proof.
  intros (_ & Ho & Hr). destruct (decide (c = r)) as [->|Hne].
  - by rewrite Hr.
  - by rewrite Ho.
Qed.

Lemma putConn_text t r w :
  exists q w',
    putConn t (connected r) w
      = Done tt w' [EvSetReadDeadline r None; EvPoolPut (connected r) q]
    /\ keeps_others r w w'
    /\ pending (conn_get w' r) = pending (conn_get w r)
    /\ wire (conn_get w' r) = wire (conn_get w r)
    /\ werr (conn_get w' r) = werr (conn_get w r).
Proof.
  destruct (putConn_spec t (connected r) r w eq_refl)
    as (q & w1 & w' & E & Hdl & Hput).
  exists q, w'. split; [exact E |]. split.
  - intros r' Hr'. rewrite (sends_to_pool_conn_get _ _ _ _ _ r' Hput).
    destruct Hdl as (_ & Ho & _). by apply Ho.
  - rewrite !(sends_to_pool_conn_get _ _ _ _ _ r Hput).
    apply (sets_deadline_text _ _ _ _ r Hdl).
Qed.


Lemma frames_app ps qs : frames (ps ++ qs) = frames ps ++ frames qs.
Proof.
  induction ps as [|p ps IH]; [reflexivity |].
  cbn [frames app]. by rewrite IH, string_app_assoc.
Qed.




End Text.

(** ** A whole transaction *)

Section Exchange.

(** The commit of a handle whose writer is healthy, over a transport
    that takes the trailer. *)
Lemma Commit_sent env t delta r w :
  chunker t = Some {| Wire := r |} -> conn t = connected r ->
  werr (conn_get w r) = None -> cenv_Flush env = None ->
  exists err w' evs,
    Commit env t delta w = Done err w' evs
    /\ wire (conn_get w' r)
       = wire (conn_get w r) ++ pending (conn_get w r) ++ commit_text delta
    /\ flushed w' r
    /\ keeps_others r w w'
    /\ err = match cenv_ReadResponse env with
             | Err e => Some e
             | Ok resp =>
                 if http.StatusCode resp =? http.StatusNoContent then None
                 else Some (errorString (http.Body resp))
             end.
Proof.
  intros Hcw Hc Hw Hfl. unfold Commit, httputil.Close, deref, ReadResponse, emit.
  unfold mbind, M_bind, mret, M_ret. rewrite Hcw, Hc, Hfl.
  cbn [after app Wire connected buf raw].
  destruct (bufio_Write_healthy r ("0" ++ CRLF) w Hw)
    as (w1 & -> & Hwr1 & Hw1 & Hp1 & Hwi1). cbn [after app].
  destruct (bufio_Write_healthy r
              (CommitDeltaHeader ++ ": " ++ fmt.verb_x delta ++ CRLF ++ CRLF)
              w1 Hw1)
    as (w2 & -> & Hwr2 & Hw2 & Hp2 & Hwi2). cbn [after app].
  destruct (bufio_Flush_sends r w2 Hw2) as (w3 & -> & Hwr3 & Hw3 & Hp3 & Hwi3).
  cbn [after app].
  destruct (SetReadDeadline_spec r (Some (cenv_Now env + time.Minute)) w3)
    as (w4 & -> & Hdl). cbn [after app].
  destruct (sets_deadline_text _ _ _ _ r Hdl) as (Hp4 & Hwi4 & Hw4).
  assert (Hkeep4 : keeps_others r w w4).
  { intros r' Hr'. destruct Hdl as (_ & Ho4 & _). rewrite Ho4 by done.
    destruct (writes_to_trans _ _ _ _ Hwr1 (writes_to_trans _ _ _ _ Hwr2 Hwr3))
      as (_ & Ho & _). by apply Ho. }
  assert (Hwire4 : wire (conn_get w4 r)
                   = wire (conn_get w r) ++ pending (conn_get w r)
                     ++ commit_text delta).
  { rewrite Hwi4, Hwi3, Hwi2, Hwi1, Hp2, Hp1. unfold commit_text.
    by rewrite !string_app_assoc. }
  destruct (cenv_ReadResponse env) as [resp|e]; cbn [after app].
  - destruct (http.Close resp); cbn [negb after app].
    + eexists _, w4, _. split; [reflexivity |]. split; [exact Hwire4 |].
      split; [split; congruence |]. split; [exact Hkeep4 |].
      by destruct (http.StatusCode resp =? http.StatusNoContent).
    + destruct (putConn_text t r w4) as (q & w5 & E & Hkeep5 & Hp5 & Hwi5 & Hw5).
      change {| raw := Some r; buf := Some r |} with (connected r).
      rewrite E. cbn [after app].
      eexists _, w5, _. split; [reflexivity |]. split; [congruence |].
      split; [split; congruence |]. split.
      * intros r' Hr'. rewrite Hkeep5 by done. by apply Hkeep4.
      * by destruct (http.StatusCode resp =? http.StatusNoContent).
  - eexists _, w4, _. split; [reflexivity |]. split; [exact Hwire4 |].
    split; [split; congruence |]. split; [exact Hkeep4 | reflexivity].
Qed.

(** X9: with a healthy writer and a transport that takes the trailer,
    [Commit] ends the body and sends everything: what the peer has been
    sent is all that the connection was given before, followed by the
    terminal chunk and the trailer with the delta in hexadecimal; the
    writer is left empty and healthy, whatever the peer answers, and the
    error returned is read off the answer alone. *)
Theorem Commit_sends_all env t delta r w :
  chunker t = Some {| Wire := r |} -> conn t = connected r ->
  werr (conn_get w r) = None -> cenv_Flush env = None ->
  exists err w' evs,
    Commit env t delta w = Done err w' evs
    /\ wire (conn_get w' r)
       = stream w r ++ "0" ++ CRLF ++ "X-Commit-Delta: "
         ++ strconv.FormatInt delta 16 ++ CRLF ++ CRLF
    /\ flushed w' r
    /\ keeps_others r w w'
    /\ (forall e, cenv_ReadResponse env = Err e -> err = Some e)
    /\ (forall resp, cenv_ReadResponse env = Ok resp ->
          err = if http.StatusCode resp =? http.StatusNoContent then None
                else Some (errorString (http.Body resp))).
Proof.
  intros Hcw Hc Hw Hfl.
  destruct (Commit_sent env t delta r w Hcw Hc Hw Hfl)
    as (err & w' & evs & E & Hwire & Hflushed & Hkeep & Herr).
  exists err, w', evs. split; [exact E |]. split.
  { rewrite Hwire. unfold stream, commit_text, fmt.verb_x, CommitDeltaHeader.
    rewrite !string_app_assoc. reflexivity. }
  split; [exact Hflushed |]. split; [exact Hkeep |].
  split; [intros e He | intros resp He]; by rewrite He in Herr.
Qed.

Lemma Commit_sends_all_witness :
  exists w' evs,
    Commit (Sample.cenv (Ok Sample.no_content)) Sample.handle 42 Sample.world_open
      = Done None w' evs
    /\ wire (conn_get w' 0%nat)
       = stream Sample.world_open 0%nat ++ "0" ++ CRLF ++ "X-Commit-Delta: "
         ++ "2a" ++ CRLF ++ CRLF.
Proof.
  destruct (Commit_sends_all (Sample.cenv (Ok Sample.no_content)) Sample.handle
              42 0%nat Sample.world_open eq_refl eq_refl
              ltac:(vm_compute; reflexivity) eq_refl)
    as (err & w' & evs & E & Hwire & _ & _ & _ & Herr).
  rewrite (Herr _ eq_refl) in E. exists w', evs. split; [exact E | exact Hwire].
Defined.






End Exchange.

(** ** A writer that holds an error *)

Section Broken.

Lemma bufio_Write_refused b s e w :
  werr (conn_get w b) = Some e ->
  bufio.Write b s w = Done (0, Some e) w [EvBufWrite b s].
Proof. intros Hw. unfold bufio.Write. cbv zeta. by rewrite Hw. Qed.

Lemma bufio_Flush_refused tr b e w :
  werr (conn_get w b) = Some e ->
  bufio.Flush tr b w = Done (Some e) w [EvFlush b false].
Proof. intros Hw. unfold bufio.Flush. cbv zeta. by rewrite Hw. Qed.

Lemma Write_refused t r e p w :
  chunker t = Some {| Wire := r |} -> werr (conn_get w r) = Some e -> p ≠ "" ->
  Write t p w = Done (0, Some e) w [EvBufWrite r (fmt.verb_x (len p) ++ CRLF)].
Proof.
  intros Hcw Hw Hp. unfold Write, deref, httputil.Write.
  unfold mbind, M_bind, mret, M_ret. rewrite Hcw. cbn [after app Wire].
  destruct (String.eqb_spec p "") as [->|_]; [contradiction |].
  by rewrite (bufio_Write_refused r _ e w Hw).
Qed.

Lemma Commit_refused env t delta r e w :
  chunker t = Some {| Wire := r |} -> buf (conn t) = Some r ->
  werr (conn_get w r) = Some e ->
  Commit env t delta w
  = Done (Some e) w
      [EvBufWrite r ("0" ++ CRLF);
       EvBufWrite r (CommitDeltaHeader ++ ": " ++ fmt.verb_x delta ++ CRLF ++ CRLF);
       EvFlush r false].
Proof.
  intros Hcw Hb Hw. unfold Commit, httputil.Close, deref.
  unfold mbind, M_bind, mret, M_ret. rewrite Hcw, Hb. cbn [after app Wire].
  rewrite (bufio_Write_refused r _ e w Hw). cbn [after app].
  rewrite (bufio_Write_refused r _ e w Hw). cbn [after app].
  rewrite (bufio_Flush_refused _ r e w Hw). reflexivity.
Qed.

(** X11: once the writer of its connection holds an error, a handle
    refuses everything and changes nothing: a write of a payload returns
    0 and that error, and [Commit] returns that error without reading a
    response or releasing the connection, whatever the peer would
    answer. Only a write of an empty payload still reports success,
    since it does not reach the writer. *)
Theorem broken_writer_refuses t r e w :
  chunker t = Some {| Wire := r |} -> buf (conn t) = Some r ->
  werr (conn_get w r) = Some e ->
  (forall p, p ≠ "" ->
     exists evs, Write t p w = Done (0, Some e) w evs)
  /\ Write t "" w = Done (0, None) w []
  /\ forall env delta,
       exists evs,
         Commit env t delta w = Done (Some e) w evs
         /\ responses_read evs = [] /\ releases evs = [].
Proof.
  intros Hcw Hb Hw. split; [| split].
  - intros p Hp. eexists. by apply (Write_refused t r e p w).
  - unfold Write, deref, httputil.Write. unfold mbind, M_bind, mret, M_ret.
    rewrite Hcw. reflexivity.
  - intros env delta. eexists. split; [by apply (Commit_refused env t delta r e w) |].
    split; reflexivity.
Qed.

Lemma string_app_not_empty (a b : string) : b ≠ "" -> a ++ b ≠ "".
Proof. destruct a; [done | discriminate]. Qed.

(** A commit whose trailer the transport does not take. *)
Lemma Commit_flush_fails env t delta r e w :
  chunker t = Some {| Wire := r |} -> conn t = connected r ->
  werr (conn_get w r) = None -> cenv_Flush env = Some e ->
  exists w' evs,
    Commit env t delta w = Done (Some e) w' evs
    /\ responses_read evs = [] /\ releases evs = []
    /\ writes_to r w w'
    /\ werr (conn_get w' r) = Some e.
Proof.
  intros Hcw Hc Hw Hfl. unfold Commit, httputil.Close, deref.
  unfold mbind, M_bind, mret, M_ret. rewrite Hcw, Hc, Hfl.
  cbn [after app Wire connected buf raw].
  destruct (bufio_Write_healthy r ("0" ++ CRLF) w Hw)
    as (w1 & -> & Hwr1 & Hw1 & Hp1 & Hwi1). cbn [after app].
  destruct (bufio_Write_healthy r
              (CommitDeltaHeader ++ ": " ++ fmt.verb_x delta ++ CRLF ++ CRLF)
              w1 Hw1)
    as (w2 & -> & Hwr2 & Hw2 & Hp2 & Hwi2). cbn [after app].
  assert (Hne : pending (conn_get w2 r) ≠ "").
  { rewrite Hp2. apply string_app_not_empty. discriminate. }
  unfold bufio.Flush. cbv zeta. rewrite Hw2.
  destruct (String.eqb_spec (pending (conn_get w2 r)) "") as [|_]; [contradiction |].
  cbn [after app]. eexists _, _. split; [reflexivity |].
  split; [reflexivity |]. split; [reflexivity |].
  rewrite conn_get_set_conn_eq. split; [| reflexivity].
  eapply writes_to_trans; [exact Hwr1 |]. eapply writes_to_trans; [exact Hwr2 |].
  unfold writes_to, same_pools. rewrite conn_get_set_conn_eq.
  split; [by split |]. split; [| reflexivity].
  intros c Hne'. by rewrite conn_get_set_conn_ne.
Qed.

(** X12: a commit whose trailer the transport does not take returns the
    error of the transport, reads no response, releases nothing and
    leaves the pools as they were; and the handle is broken for good:
    every later commit on it returns that same error, whatever the
    transport and the peer would do then, and so does every write of a
    payload. *)
Theorem failed_commit_breaks_the_handle env t delta r e w :
  chunker t = Some {| Wire := r |} -> conn t = connected r ->
  werr (conn_get w r) = None -> cenv_Flush env = Some e ->
  exists w' evs,
    Commit env t delta w = Done (Some e) w' evs
    /\ responses_read evs = [] /\ releases evs = []
    /\ idlePools w' = idlePools w
    /\ (forall env' delta',
          exists evs', Commit env' t delta' w' = Done (Some e) w' evs'
                       /\ responses_read evs' = [] /\ releases evs' = [])
    /\ (forall p, p ≠ "" -> exists evs', Write t p w' = Done (0, Some e) w' evs').
Proof.
  intros Hcw Hc Hw Hfl.
  destruct (Commit_flush_fails env t delta r e w Hcw Hc Hw Hfl)
    as (w' & evs & E & Hread & Hrel & Hwr & Hw').
  assert (Hb : buf (conn t) = Some r) by (by rewrite Hc).
  exists w', evs. split; [exact E |]. split; [exact Hread |].
  split; [exact Hrel |]. split; [by apply (writes_to_pools r) |]. split.
  - intros env' delta'. eexists.
    split; [by apply (Commit_refused env' t delta' r e w') |]. split; reflexivity.
  - intros p Hp. eexists. by apply (Write_refused t r e p w').
Qed.

Lemma failed_commit_breaks_the_handle_witness :
  exists w' evs,
    Commit Sample.cenv_broken Sample.handle 42 Sample.world_open
      = Done (Some (errorString "broken pipe")) w' evs
    /\ exists evs',
         Commit (Sample.cenv (Ok Sample.no_content)) Sample.handle 42 w'
           = Done (Some (errorString "broken pipe")) w' evs'.
Proof.
  destruct (failed_commit_breaks_the_handle Sample.cenv_broken Sample.handle 42
              0%nat (errorString "broken pipe") Sample.world_open
              eq_refl eq_refl ltac:(vm_compute; reflexivity) eq_refl)
    as (w' & evs & E & _ & _ & _ & Hagain & _).
  exists w', evs. split; [exact E |].
  destruct (Hagain (Sample.cenv (Ok Sample.no_content)) 42) as (evs' & E' & _).
  exists evs'. exact E'.
Defined.

(** A world in which the writer of the sample handle holds an error. *)
Lemma broken_writer_refuses_witness :
  exists w evs,
    werr (conn_get w 0%nat) = Some (errorString "broken pipe")
    /\ Write Sample.handle "abc" w
       = Done (0, Some (errorString "broken pipe")) w evs
    /\ Write Sample.handle "" w = Done (0, None) w [].
Proof.
  set (w := final_world (Commit Sample.cenv_broken Sample.handle 42
                           Sample.world_open)).
  assert (Hw : werr (conn_get w 0%nat) = Some (errorString "broken pipe"))
    by (vm_compute; reflexivity).
  destruct (broken_writer_refuses Sample.handle 0%nat
              (errorString "broken pipe") w eq_refl eq_refl Hw)
    as (Hwrite & Hempty & _).
  destruct (Hwrite "abc" ltac:(discriminate)) as (evs & E).
  exists w, evs. split; [exact Hw |]. split; [exact E | exact Hempty].
Defined.

End Broken.

(** ** The result of a transaction *)

Section Results.
Import Int64 strconv.

Lemma to_int64_in_int64 z : in_int64 (to_int64 z).
Proof.
  unfold in_int64, to_int64, MinInt64, MaxInt64, modulus.
  pose proof (Z.mod_pos_bound (z + 2 ^ 63) (2 ^ 64) ltac:(lia)). lia.
Qed.

(** Whatever the text, the value that [ParseInt] returns for 64 bits is
    a 64-bit integer. *)
Lemma ParseInt_in_int64 s base : in_int64 (fst (ParseInt s base 64)).
Proof.
  assert (H0 : in_int64 0) by (unfold in_int64, MinInt64, MaxInt64; lia).
  unfold ParseInt. destruct s as [|c rest]; [exact H0 |].
  destruct (if Ascii.eqb c "+" then (false, rest)
            else if Ascii.eqb c "-" then (true, rest) else (false, String c rest))
    as [neg s1].
  destruct (ParseUint s1 base 64) as [un [[]|]]; cbn [fst snd]; try exact H0.
  all: change (2 ^ (64 - 1)) with (2 ^ 63).
  all: destruct (negb neg && (2 ^ 63 <=? un)); cbn [fst snd];
    [unfold in_int64, MinInt64, MaxInt64; lia |].
  all: destruct (neg && (2 ^ 63 <? un)); cbn [fst snd];
    [unfold in_int64, MinInt64, MaxInt64; lia |].
  all: destruct neg; cbn [fst]; apply to_int64_in_int64.
Qed.

(** X13: every result that [start] sends is either an error or a write
    handle, never both and never neither; a result with a handle has
    write head 0; and the write head of any result is a 64-bit integer,
    whatever the peer put into its header. *)
Theorem start_result_shape env op t w res :
  In res (sends_on (Result op) (events_of (start env op t) w)) ->
  (Error res = None <-> is_Some (Writer res))
  /\ (is_Some (Writer res) -> ErrorWriteHead res = 0)
  /\ in_int64 (ErrorWriteHead res).
Proof.
  assert (H0 : in_int64 0) by (unfold in_int64, MinInt64, MaxInt64; lia).
  unfold events_of. run_client (start env op t w).
  all: read_log; cbn [In]; intros Hin.
  all: repeat match goal with H : _ \/ _ |- _ => destruct H as [<-|H] end.
  all: try contradiction.
  all: cbn [Error Writer ErrorWriteHead error_result].
  all: split;
    [split; [try discriminate; eauto | intros [? [=]]; try reflexivity] |].
  all: split; [first [reflexivity | intros [? [=]]] |].
  all: try exact H0.
  all: match goal with
       | H : ParseInt ?s 16 64 = (?v, _) |- in_int64 ?v =>
           pose proof (ParseInt_in_int64 s 16) as Hr; by rewrite H in Hr
       end.
Qed.

Lemma start_result_shape_witness :
  ErrorWriteHead
    (error_result (errorString "wrong write head") MaxInt64) = MaxInt64
  /\ in_int64
       (ErrorWriteHead (error_result (errorString "wrong write head") MaxInt64)).
Proof.
  split; [reflexivity |].
  refine (proj2 (proj2 (start_result_shape
                          (Sample.env (Ok (Sample.conflict "8000000000000000")))
                          Sample.op Sample.txn0 Sample.world0 _ _))).
  vm_compute. left. reflexivity.
Defined.

(** A pooled connection of a system the client can reach has a transport
    and a buffer. *)
Lemma reachable_pooled_connected s : reachable s -> pooled_connected (world s).
Proof.
  intros Hreach k ch c Hk Hin.
  destruct (reachable_inv s Hreach) as [Hpooled _ _ _].
  destruct (Hpooled c) as (r & -> & _); [by exists k, ch |].
  split; eexists; reflexivity.
Qed.

(** X14: in a system the client can reach, a run of [Replicate] that is
    given a request by the endpoint does not panic and delivers exactly
    one result, whatever the peer and the network do. *)
Theorem Replicate_delivers_once s env c op req rerr :
  reachable s ->
  env_NewHTTPRequest env "REPLICATE" ("/" ++ Journal op) = (Some req, rerr) ->
  panicked (Replicate env c op (world s)) = false
  /\ exists res,
       sends_on (Result op) (events_of (Replicate env c op) (world s)) = [res].
Proof.
  intros Hreach Hreq.
  exact (start_delivers_once env op _ (world s) req rerr
           (reachable_pooled_connected s Hreach) Hreq).
Qed.

Lemma Replicate_delivers_once_witness :
  exists res,
    sends_on (Result Sample.op)
      (events_of (Replicate (Sample.env (Ok Sample.quota)) Sample.client0
                    Sample.op)
         (final_world
            (Replicate (Sample.env (Ok Sample.refusal)) Sample.client0
               Sample.op Sample.world0)))
    = [res].
Proof.
  exact (proj2 (Replicate_delivers_once _ (Sample.env (Ok Sample.quota))
                  Sample.client0 Sample.op Sample.req None
                  reachable_after_refusal eq_refl)).
Defined.

End Results.

(** ** The query of the request *)

Section Query.
Import strconv.

Lemma count_app c (a b : string) : count c (a ++ b) = (count c a + count c b)%nat.
Proof.
  induction a as [|x a IH]; [reflexivity |].
  change (count c (String x (a ++ b)) = (count c (String x a) + count c b)%nat).
  cbn [count]. rewrite IH. lia.
Qed.

Lemma count_get c s : forall n c',
  String.get n s = Some c' -> count c s = 0%nat -> Ascii.eqb c c' = false.
Proof.
  induction s as [|x s IH]; intros n c' Hget Hc; [discriminate |].
  cbn [count] in Hc. destruct n as [|n]; cbn in Hget.
  - injection Hget as <-. destruct (Ascii.eqb c x); [discriminate | reflexivity].
  - apply (IH n c' Hget). lia.
Qed.

Lemma shouldEscape_upperhex c :
  url.shouldEscape c = true -> count c url.upperhex = 0%nat.
Proof.
  destruct c as [[] [] [] [] [] [] [] []]; vm_compute; intros H;
    first [reflexivity | discriminate H].
Qed.

Lemma hexdigit_kept c v :
  url.shouldEscape c = true -> Ascii.eqb c (url.hexdigit v) = false.
Proof.
  intros Hc. pose proof (shouldEscape_upperhex c Hc) as H0. unfold url.hexdigit.
  destruct (String.get (Z.to_nat v) url.upperhex) as [c'|] eqn:E.
  - by apply (count_get c url.upperhex (Z.to_nat v)).
  - by apply (count_get c url.upperhex 0%nat).
Qed.

(** A byte that is escaped does not occur in an escaped text, unless it
    is one of the two that the escape itself writes. *)
Lemma QueryEscape_count c s :
  url.shouldEscape c = true -> c ≠ "%"%char -> c ≠ "+"%char ->
  count c (url.QueryEscape s) = 0%nat.
Proof.
  intros Hc Hpct Hplus. induction s as [|x s IH]; [reflexivity |].
  cbn [url.QueryEscape]. destruct (url.shouldEscape x) eqn:Hx.
  - destruct (byte_val x =? 32); cbn [count]; rewrite IH.
    + destruct (Ascii.eqb_spec c "+"); [contradiction | reflexivity].
    + rewrite !hexdigit_kept by done.
      destruct (Ascii.eqb_spec c "%"); [contradiction | reflexivity].
  - cbn [count]. rewrite IH.
    destruct (Ascii.eqb_spec c x) as [->|_]; [congruence | reflexivity].
Qed.

(** X15: whatever bytes the route token holds, the query that [start]
    puts into the request keeps its shape: a byte that query escaping
    escapes, other than the percent and plus signs it writes itself,
    occurs in the query exactly where the three keys put it. So the
    query has two ampersands and three equals signs, and no space. *)
Theorem query_keeps_its_shape op req :
  (forall c, url.shouldEscape c = true -> c ≠ "%"%char -> c ≠ "+"%char ->
     count c (url.RawQuery (http.URL (handshake_request op req)))
     = count c "newSpool=&routeToken=&writeHead=")
  /\ count "&" (url.RawQuery (http.URL (handshake_request op req))) = 2%nat
  /\ count "=" (url.RawQuery (http.URL (handshake_request op req))) = 3%nat
  /\ count " " (url.RawQuery (http.URL (handshake_request op req))) = 0%nat.
Proof.
  assert (H : forall c, url.shouldEscape c = true -> c ≠ "%"%char -> c ≠ "+"%char ->
            count c (url.RawQuery (http.URL (handshake_request op req)))
            = count c "newSpool=&routeToken=&writeHead=").
  { intros c Hc Hpct Hplus. cbn [handshake_request http.URL url.RawQuery].
    rewrite handshake_query.
    rewrite <- (QueryEscape_FormatInt (WriteHead op) 10) by lia.
    assert (Hb : FormatBool (NewSpool op)
                 = url.QueryEscape (FormatBool (NewSpool op)))
      by (destruct (NewSpool op); reflexivity).
    rewrite Hb.
    change "newSpool=&routeToken=&writeHead="
      with ("newSpool=" ++ "&routeToken=" ++ "&writeHead=").
    rewrite !count_app, !QueryEscape_count by done. lia. }
  split; [exact H |].
  split; [| split]; rewrite H by (try reflexivity; discriminate); reflexivity.
Qed.

End Query.

(** ** A connection from one transaction to the next *)

Section Reuse.

(** X16: a run of [start] releases a connection at most once, and only
    after it has read a response that is not 100 (Continue) and does not
    ask to close; on every other path, and whenever it delivers a write
    handle, it releases nothing. *)
Theorem start_releases_only_rejected env op t w :
  (releases (events_of (start env op t) w) = []
   \/ exists c q resp,
        releases (events_of (start env op t) w) = [(c, q)]
        /\ responses_read (events_of (start env op t) w) = [Ok resp]
        /\ http.StatusCode resp ≠ http.StatusContinue
        /\ http.Close resp = false)
  /\ forall res,
       In res (sends_on (Result op) (events_of (start env op t) w)) ->
       is_Some (Writer res) ->
       releases (events_of (start env op t) w) = [].
Proof.
  unfold events_of. run_client (start env op t w).
  all: read_log; cbn [In].
  all: split;
    [| intros res Hin [? Hw];
       repeat match goal with H : _ \/ _ |- _ => destruct H as [<-|H] end;
       first [contradiction | discriminate Hw | reflexivity]].
  all: try (left; reflexivity).
  all: right; eexists _, _, _; split; [reflexivity |]; split; [reflexivity |].
  all: match goal with
       | H : negb (_ =? _) = true |- _ =>
           apply negb_true_iff, Z.eqb_neq in H
       end.
  all: match goal with
       | H : negb (http.Close _) && _ = true |- _ =>
           apply andb_prop in H as [H _]; apply negb_true_iff in H
       end.
  all: split; assumption.
Qed.

Lemma handshake_no_dial env op t c w :
  dial_attempts (events (handshake env op t c w)) = 0%nat.
Proof.
  run_client (handshake env op t c w).
  all: reflexivity.
Qed.

(** A commit that the peer answers without asking to close. *)
Lemma Commit_releases env t delta r w ch resp :
  chunker t = Some {| Wire := r |} -> conn t = connected r ->
  werr (conn_get w r) = None -> cenv_Flush env = None ->
  cenv_ReadResponse env = Ok resp -> http.Close resp = false ->
  idlePools w !! idlePool (client t) = Some ch ->
  exists err w' evs,
    Commit env t delta w = Done err w' evs
    /\ idlePools w' !! idlePool (client t)
       = Some {| cap := cap ch;
                 queue := if (length (queue ch) <? cap ch)%nat
                          then queue ch ++ [connected r] else queue ch |}
    /\ releases evs = [(connected r, (length (queue ch) <? cap ch)%nat)].
Proof.
  intros Hcw Hc Hw Hfl Hresp Hclose Hk.
  unfold Commit, httputil.Close, deref, ReadResponse, emit.
  unfold mbind, M_bind, mret, M_ret. rewrite Hcw, Hc, Hfl, Hresp.
  cbn [after app Wire connected buf raw].
  destruct (bufio_Write_healthy r ("0" ++ CRLF) w Hw)
    as (w1 & -> & Hwr1 & Hw1 & _). cbn [after app].
  destruct (bufio_Write_healthy r
              (CommitDeltaHeader ++ ": " ++ fmt.verb_x delta ++ CRLF ++ CRLF)
              w1 Hw1)
    as (w2 & -> & Hwr2 & Hw2 & _). cbn [after app].
  destruct (bufio_Flush_sends r w2 Hw2) as (w3 & -> & Hwr3 & _).
  cbn [after app].
  destruct (SetReadDeadline_spec r (Some (cenv_Now env + time.Minute)) w3)
    as (w4 & -> & Hdl). cbn [after app]. rewrite Hclose. cbn [negb after app].
  assert (Hk4 : idlePools w4 !! idlePool (client t) = Some ch).
  { rewrite (sets_deadline_pools _ _ _ _ Hdl), (writes_to_pools _ _ _ Hwr3),
      (writes_to_pools _ _ _ Hwr2), (writes_to_pools _ _ _ Hwr1). exact Hk. }
  change {| raw := Some r; buf := Some r |} with (connected r).
  destruct (putConn_queue t (connected r) r w4 ch eq_refl Hk4)
    as (w5 & -> & Hq & _). cbn [after app].
  eexists _, w5, _. split; [reflexivity |]. split; [exact Hq | reflexivity].
Qed.

(** X17: connections are kept alive from one transaction to the next.
    In a system the client can reach, when a live handle with a healthy
    writer is committed, the transport takes the trailer and the peer
    answers without asking to close, the connection goes to the pool of
    the client; if that pool was empty, it is then the only connection
    there, and the next [Replicate] of the client starts by taking it,
    without resolving the endpoint or dialling. *)
Theorem committed_connection_is_taken_next s t cenv delta resp ch :
  reachable s -> t ∈ owned s ->
  idlePools (world s) !! idlePool (client t) = Some ch -> queue ch = [] ->
  (forall r, raw (conn t) = Some r -> werr (conn_get (world s) r) = None) ->
  cenv_Flush cenv = None -> cenv_ReadResponse cenv = Ok resp ->
  http.Close resp = false ->
  exists err w1 evs1,
    Commit cenv t delta (world s) = Done err w1 evs1
    /\ releases evs1 = [(conn t, true)]
    /\ pool_queue w1 (idlePool (client t)) = [conn t]
    /\ forall env op,
         exists rest,
           events_of (Replicate env (client t) op) w1
             = EvPoolTake (conn t) :: rest
           /\ dial_attempts rest = 0%nat.
Proof.
  intros Hreach Ht Hk Hempty Hhealthy Hfl Hresp Hclose.
  destruct (reachable_inv s Hreach) as [_ _ _ Howned].
  destruct (Howned t Ht) as (r & Hc & Hcw & _).
  destruct (reachable_bounded s Hreach _ _ Hk) as [Hcap _].
  assert (Hw : werr (conn_get (world s) r) = None)
    by (apply Hhealthy; by rewrite Hc).
  destruct (Commit_releases cenv t delta r (world s) ch resp
              Hcw Hc Hw Hfl Hresp Hclose Hk)
    as (err & w1 & evs1 & E & Hq & Hrel).
  rewrite Hempty, Hcap in Hq, Hrel. cbn in Hq, Hrel.
  exists err, w1, evs1. split; [exact E |]. rewrite Hc.
  split; [exact Hrel |]. split; [unfold pool_queue; by rewrite Hq |].
  intros env op. unfold events_of, Replicate, start. unfold mbind, M_bind.
  set (t0 := {| client := client t; chunker := None; conn := zeroConn;
                request := None |}).
  destruct (takeConn_cases env t0 w1)
    as [(n & c0 & rest & Hin & ->)|(Hnone & _)].
  - cbn [client t0] in Hin. rewrite Hq in Hin. injection Hin as <- <- <-.
    cbn [after].
    pose proof (handshake_no_dial env op t0 (connected r)
                  (set_pool (idlePool (client t0))
                     {| cap := ReplicateClientIdlePoolSize; queue := [] |} w1)) as Hnd.
    destruct (handshake env op t0 (connected r) _) as [t1 w2 evs2|w2 evs2];
      cbn [after events app] in *; eauto.
  - unfold pool_queue in Hnone. cbn [client t0] in Hnone. rewrite Hq in Hnone.
    discriminate.
Qed.

Lemma committed_connection_is_taken_next_witness :
  exists err w1 evs1,
    Commit (Sample.cenv (Ok Sample.no_content)) Sample.handle 42 Sample.world_open
      = Done err w1 evs1
    /\ pool_queue w1 "http://peer:8080" = [Sample.conn_n 0].
Proof.
  destruct (committed_connection_is_taken_next
              {| world := Sample.world_open; owned := [Sample.handle] |}
              Sample.handle (Sample.cenv (Ok Sample.no_content)) 42
              Sample.no_content
              {| cap := ReplicateClientIdlePoolSize; queue := [] |}
              reachable_open ltac:(constructor)
              ltac:(vm_compute; reflexivity) eq_refl
              ltac:(intros r [= <-]; vm_compute; reflexivity)
              eq_refl eq_refl eq_refl)
    as (err & w1 & evs1 & E & _ & Hq & _).
  exists err, w1, evs1. split; [exact E | exact Hq].
Defined.

End Reuse.

(** ** The ways a handshake ends *)

Section Paths.

Lemma keeps_trans r w w1 w2 :
  keeps_others r w w1 -> keeps_others r w1 w2 -> keeps_others r w w2.
Proof. intros H1 H2 r' Hr'. rewrite H2 by done. by apply H1. Qed.

Lemma remoteWriteHead_spec resp w :
  exists evs,
    remoteWriteHead resp w = Done (reported_head resp) w evs
    /\ (evs = [] \/ evs = [EvLogError "failed to parse replica head"]).
Proof.
  unfold remoteWriteHead, reported_head. cbv zeta.
  destruct (String.eqb _ ""); [eexists; split; [reflexivity | by left] |].
  destruct (strconv.ParseInt _ 16 64) as [v [e|]]; cbn [fst].
  - eexists. split; [reflexivity | by right].
  - eexists. split; [reflexivity | by left].
Qed.

(** X18: the ways the handshake fails once [start] holds a connection
    with an empty and healthy writer and a request. An error of
    [DumpRequest] is delivered with nothing written. A request head that
    the transport does not take delivers the error of the transport,
    with no response read, and leaves the writer broken. A response that
    cannot be read delivers that error after the request head has gone
    to the peer, and leaves the one-minute deadline in place. Each time
    the transaction is returned as it was, without a handle, and the
    connection is not released. *)
Theorem start_handshake_failures env op t w r w0 evs0 req rerr :
  takeConn env t w = Done (connected r, None) w0 evs0 ->
  flushed w0 r ->
  env_NewHTTPRequest env "REPLICATE" ("/" ++ Journal op) = (Some req, rerr) ->
  (forall e,
     env_DumpRequest env (handshake_request op req) = Err e ->
     start env op t w
       = Done t w0 (evs0 ++ [EvSend (Result op) (error_result e 0)]))
  /\ (forall reqBytes e,
        env_DumpRequest env (handshake_request op req) = Ok reqBytes ->
        reqBytes ≠ "" -> env_Flush env = Some e ->
        exists w',
          start env op t w
            = Done t w' (evs0 ++ [EvBufWrite r reqBytes; EvFlush r false;
                                  EvSend (Result op) (error_result e 0)])
          /\ werr (conn_get w' r) = Some e
          /\ idlePools w' = idlePools w0)
  /\ (forall reqBytes e,
        env_DumpRequest env (handshake_request op req) = Ok reqBytes ->
        env_Flush env = None -> env_ReadResponse env = Err e ->
        exists w',
          start env op t w
            = Done t w'
                (evs0 ++ [EvBufWrite r reqBytes; EvFlush r true;
                          EvSetReadDeadline r (Some (env_Now env + time.Minute));
                          EvReadResponse r (Err e);
                          EvSend (Result op) (error_result e 0)])
          /\ wire (conn_get w' r) = wire (conn_get w0 r) ++ reqBytes
          /\ deadline (conn_get w' r) = Some (env_Now env + time.Minute)
          /\ idlePools w' = idlePools w0).
Proof.
  intros Etake [Hp Hw] Hreq.
  assert (Estart : start env op t w
                   = after evs0 (handshake env op t (connected r) w0)).
  { unfold start. unfold mbind, M_bind. by rewrite Etake. }
  rewrite Estart. unfold handshake, deref, ReadResponse, send, emit.
  unfold mbind, M_bind, mret, M_ret. rewrite Hreq. cbn [after app].
  split; [| split].
  - intros e Hdump. rewrite Hdump. reflexivity.
  - intros reqBytes e Hdump Hne Hfl. rewrite Hdump, Hfl.
    cbn [after app connected buf raw].
    destruct (bufio_Write_healthy r reqBytes w0 Hw)
      as (w1 & -> & Hwr1 & Hw1 & Hp1 & Hwi1). cbn [after app].
    unfold bufio.Flush. cbv zeta. rewrite Hw1.
    destruct (String.eqb_spec (pending (conn_get w1 r)) "") as [Hempty|_].
    { rewrite Hp1, Hp in Hempty. contradiction. }
    cbn [after app]. eexists. split; [reflexivity |].
    rewrite conn_get_set_conn_eq. split; [reflexivity |].
    cbn [set_conn idlePools]. by apply (writes_to_pools r).
  - intros reqBytes e Hdump Hfl Hresp. rewrite Hdump, Hfl, Hresp.
    cbn [after app connected buf raw].
    destruct (bufio_Write_healthy r reqBytes w0 Hw)
      as (w1 & -> & Hwr1 & Hw1 & Hp1 & Hwi1). cbn [after app].
    destruct (bufio_Flush_sends r w1 Hw1) as (w2 & -> & Hwr2 & Hw2 & Hp2 & Hwi2).
    cbn [after app].
    destruct (SetReadDeadline_spec r (Some (env_Now env + time.Minute)) w2)
      as (w3 & -> & Hdl3). cbn [after app].
    destruct (sets_deadline_text _ _ _ _ r Hdl3) as (Hp3 & Hwi3 & Hw3).
    exists w3. split; [reflexivity |].
    split; [rewrite Hwi3, Hwi2, Hwi1, Hp1, Hp; reflexivity |]. split.
    + rewrite (sets_deadline_deadline _ _ _ _ r Hdl3). by rewrite decide_True.
    + rewrite (sets_deadline_pools _ _ _ _ Hdl3), (writes_to_pools _ _ _ Hwr2).
      apply (writes_to_pools _ _ _ Hwr1).
Qed.

Lemma start_handshake_failures_witness :
  exists w',
    start (Sample.env (Err (errorString "timeout"))) Sample.op Sample.txn0
      Sample.world0
    = Done Sample.txn0 w'
        ([EvResolveURL true; EvDial "peer:8080" true]
         ++ [EvBufWrite 0%nat
               ("REPLICATE /a/journal?newSpool=true&routeToken=tok+en%2F1&writeHead=1234 HTTP/1.1"
                ++ CRLF ++ CRLF);
             EvFlush 0%nat true; EvSetReadDeadline 0%nat (Some (1000 + time.Minute));
             EvReadResponse 0%nat (Err (errorString "timeout"));
             EvSend 7%nat (error_result (errorString "timeout") 0)])
    /\ deadline (conn_get w' 0%nat) = Some (1000 + time.Minute).
Proof.
  destruct (start_handshake_failures
              (Sample.env (Err (errorString "timeout"))) Sample.op Sample.txn0
              Sample.world0 0%nat
              (final_world
                 (takeConn (Sample.env (Err (errorString "timeout")))
                    Sample.txn0 Sample.world0))
              [EvResolveURL true; EvDial "peer:8080" true]
              Sample.req None
              ltac:(vm_compute; reflexivity)
              ltac:(split; vm_compute; reflexivity)
              eq_refl)
    as (_ & _ & Hread).
  destruct (Hread _ (errorString "timeout")
              ltac:(vm_compute; reflexivity) eq_refl eq_refl)
    as (w' & E & _ & Hd & _).
  exists w'. split; [exact E | exact Hd].
Defined.

(** X19: a rejected request is ended before the connection is let go.
    When [start] holds a connection with an empty and healthy writer,
    the peer answers with a status other than 100 and the transport
    takes what is written, the peer has been sent the request head and
    then the terminal chunk with an empty trailer, and nothing is left
    in the writer; the connection is released, with its deadline
    cleared, exactly when the response does not ask to close, and
    otherwise keeps the one-minute deadline; one error is delivered,
    whose message is the body of the response. *)
Theorem rejected_request_is_ended env op t w r w0 evs0 req rerr reqBytes resp :
  takeConn env t w = Done (connected r, None) w0 evs0 ->
  flushed w0 r ->
  env_NewHTTPRequest env "REPLICATE" ("/" ++ Journal op) = (Some req, rerr) ->
  env_DumpRequest env (handshake_request op req) = Ok reqBytes ->
  env_Flush env = None -> env_FlushEnd env = None ->
  env_ReadResponse env = Ok resp ->
  http.StatusCode resp ≠ http.StatusContinue ->
  exists w' evs,
    start env op t w = Done t w' (evs0 ++ evs)
    /\ wire (conn_get w' r) = wire (conn_get w0 r) ++ reqBytes ++ "0" ++ CRLF ++ CRLF
    /\ flushed w' r
    /\ sends_on (Result op) evs
       = [error_result (errorString (http.Body resp)) (reported_head resp)]
    /\ releases evs
       = (if http.Close resp then []
          else [(connected r, has_room w0 (idlePool (client t)))])
    /\ deadline (conn_get w' r)
       = (if http.Close resp then Some (env_Now env + time.Minute) else None).
Proof.
  intros Etake [Hp Hw] Hreq Hdump Hfl Hend Hresp Hstatus.
  assert (Estart : start env op t w
                   = after evs0 (handshake env op t (connected r) w0)).
  { unfold start. unfold mbind, M_bind. by rewrite Etake. }
  rewrite Estart.
  unfold handshake, rejected, deref, ReadResponse, send, emit.
  unfold mbind, M_bind, mret, M_ret. rewrite Hreq. cbn [after app].
  rewrite Hdump, Hfl, Hresp, Hend. cbn [after app connected buf raw].
  destruct (bufio_Write_healthy r reqBytes w0 Hw)
    as (w1 & -> & Hwr1 & Hw1 & Hp1 & Hwi1). cbn [after app].
  destruct (bufio_Flush_sends r w1 Hw1) as (w2 & -> & Hwr2 & Hw2 & Hp2 & Hwi2).
  cbn [after app].
  destruct (SetReadDeadline_spec r (Some (env_Now env + time.Minute)) w2)
    as (w3 & -> & Hdl3). cbn [after app].
  destruct (sets_deadline_text _ _ _ _ r Hdl3) as (Hp3 & Hwi3 & Hw3).
  destruct (Z.eqb_spec (http.StatusCode resp) http.StatusContinue) as [|_];
    [contradiction |]. cbn [negb].
  destruct (remoteWriteHead_spec resp w3) as (evl & -> & Hevl). cbn [after app].
  destruct (bufio_Write_healthy r ("0" ++ CRLF ++ CRLF) w3 ltac:(congruence))
    as (w4 & -> & Hwr4 & Hw4 & Hp4 & Hwi4). cbn [after app].
  destruct (bufio_Flush_sends r w4 Hw4) as (w5 & -> & Hwr5 & Hw5 & Hp5 & Hwi5).
  cbn [after app is_nil].
  assert (Hwire : wire (conn_get w5 r)
                  = wire (conn_get w0 r) ++ reqBytes ++ "0" ++ CRLF ++ CRLF).
  { rewrite Hwi5, Hp4, Hwi4, Hp3, Hwi3, Hp2, Hwi2, Hwi1, Hp1, Hp.
    change ("" ++ reqBytes) with reqBytes.
    change ("" ++ "0" ++ CRLF ++ CRLF) with ("0" ++ CRLF ++ CRLF).
    by rewrite string_app_assoc. }
  assert (Hd5 : deadline (conn_get w5 r) = Some (env_Now env + time.Minute)).
  { destruct Hwr5 as (_ & _ & ->). destruct Hwr4 as (_ & _ & ->).
    rewrite (sets_deadline_deadline _ _ _ _ r Hdl3). by rewrite decide_True. }
  assert (Hpools : idlePools w5 = idlePools w0).
  { rewrite (writes_to_pools _ _ _ Hwr5), (writes_to_pools _ _ _ Hwr4),
      (sets_deadline_pools _ _ _ _ Hdl3), (writes_to_pools _ _ _ Hwr2).
    apply (writes_to_pools _ _ _ Hwr1). }
  destruct (http.Close resp); cbn [negb andb after app].
  - exists w5. eexists. split; [reflexivity |]. split; [exact Hwire |].
    split; [by split |].
    destruct Hevl as [-> | ->]; read_log; auto.
  - destruct (putConn_spec t (connected r) r w5 eq_refl)
      as (q & w6 & w7 & E & Hdl6 & Hput).
    change {| raw := Some r; buf := Some r |} with (connected r).
    rewrite E. cbn [after app].
    destruct (sets_deadline_text _ _ _ _ r Hdl6) as (Hp6 & Hwi6 & Hw6).
    destruct (sends_to_pool_queue _ _ _ w0 _ _
                ltac:(rewrite (sets_deadline_pools _ _ _ _ Hdl6); exact Hpools) Hput)
      as (Hq & _).
    exists w7. eexists. split; [reflexivity |]. unfold flushed.
    rewrite !(sends_to_pool_conn_get _ _ _ _ _ r Hput).
    split; [congruence |]. split; [split; congruence |].
    split; [| split].
    + destruct Hevl as [-> | ->]; read_log; reflexivity.
    + rewrite Hq. destruct Hevl as [-> | ->]; read_log; reflexivity.
    + rewrite (sets_deadline_deadline _ _ _ _ r Hdl6). by rewrite decide_True.
Qed.

Lemma rejected_request_is_ended_witness :
  exists w' evs,
    start (Sample.env (Ok (Sample.conflict "2a"))) Sample.op Sample.txn0
      Sample.world0
    = Done Sample.txn0 w' ([EvResolveURL true; EvDial "peer:8080" true] ++ evs)
    /\ sends_on 7%nat evs = [error_result (errorString "wrong write head") 42]
    /\ releases evs = [(Sample.conn_n 0, true)].
Proof.
  destruct (rejected_request_is_ended
              (Sample.env (Ok (Sample.conflict "2a"))) Sample.op Sample.txn0
              Sample.world0 0%nat
              (final_world
                 (takeConn (Sample.env (Ok (Sample.conflict "2a")))
                    Sample.txn0 Sample.world0))
              [EvResolveURL true; EvDial "peer:8080" true]
              Sample.req None _ (Sample.conflict "2a")
              ltac:(vm_compute; reflexivity)
              ltac:(split; vm_compute; reflexivity)
              eq_refl eq_refl eq_refl eq_refl eq_refl
              ltac:(vm_compute; discriminate))
    as (w' & evs & E & _ & _ & Hsend & Hrel & _).
  exists w', evs. split; [exact E |]. split; [exact Hsend | exact Hrel].
Defined.

End Paths.

(** ** The connections a run leaves alone *)

Section Frame.

Lemma final_world_after {A : Type} evs (o : Outcome A) :
  final_world (after evs o) = final_world o.
Proof. by destruct o. Qed.

(** X20: in a system the client can reach, a run changes the state of
    one connection at most: [Replicate] that of the connection it takes
    or dials, [Write] and [Commit] that of the connection of their
    handle. The deadline, the writer and what was sent of every other
    connection are as they were, however the run ends. *)
Theorem runs_touch_one_connection s :
  reachable s ->
  (forall env c op,
     exists r,
       keeps_others r (world s) (final_world (Replicate env c op (world s))))
  /\ (forall t r, t ∈ owned s -> raw (conn t) = Some r ->
        (forall env delta,
           keeps_others r (world s) (final_world (Commit env t delta (world s))))
        /\ (forall p,
              keeps_others r (world s) (final_world (Write t p (world s))))).
Proof.
  intros Hreach. destruct (reachable_inv s Hreach) as [Hpooled _ _ Howned].
  split.
  - intros env c op. unfold Replicate, start.
    set (t := {| client := c; chunker := None; conn := zeroConn; request := None |}).
    unfold mbind, M_bind.
    destruct (takeConn_cases env t (world s))
      as [(n & c0 & rest & Hin & ->)
         |(_ & [(e & _ & ->)|[(u & e & _ & _ & ->)|(u & w1 & _ & _ & -> & Hd)]])].
    + destruct (Hpooled c0) as (r & -> & _).
      { exists (idlePool (client t)), {| cap := n; queue := c0 :: rest |}.
        split; [exact Hin | by left]. }
      exists r. rewrite final_world_after.
      destruct (handshake_flushes env op t r
                  (set_pool (idlePool (client t)) {| cap := n; queue := rest |}
                     (world s)))
        as (released & _ & Hkeep & _).
      eapply keeps_trans; [| exact Hkeep]. by intros r' _.
    + exists 0%nat. apply keeps_refl.
    + exists 0%nat. apply keeps_refl.
    + exists (nextConn (world s)). rewrite final_world_after.
      change {| raw := Some (nextConn (world s)); buf := Some (nextConn (world s)) |}
        with (connected (nextConn (world s))).
      destruct (handshake_flushes env op t (nextConn (world s)) w1)
        as (released & _ & Hkeep & _).
      eapply keeps_trans; [| exact Hkeep].
      destruct Hd as (_ & _ & _ & _ & _ & Hother). exact Hother.
  - intros t r Ht Hr. destruct (Howned t Ht) as (r0 & Hc & Hcw & _).
    rewrite Hc in Hr. cbn in Hr. injection Hr as ->. split.
    + intros env delta.
      by destruct (Commit_flushes env t delta r (world s) Hc Hcw) as (_ & _ & Hkeep & _).
    + intros p. by apply Write_keeps.
Qed.

Lemma runs_touch_one_connection_witness :
  keeps_others 0%nat Sample.world_open
    (final_world
       (Commit (Sample.cenv (Ok Sample.quota)) Sample.handle 42 Sample.world_open)).
Proof.
  exact (proj1 (proj2 (runs_touch_one_connection _ reachable_open)
                  Sample.handle 0%nat ltac:(constructor) eq_refl)
           (Sample.cenv (Ok Sample.quota)) 42).
Defined.

End Frame.
